(** * SchurSieve: Jacobi-Trudi capacities over a sequence of primes

    A shallow embedding of [src/schur_sieve.py].  The class [SchurSieve]
    keeps three fields ([_primes], [_h_basis], [_degree]); its methods are
    embedded as computations in a state-and-exception monad over a record
    with those fields.  Python integers are [Z], Python lists and numpy
    arrays are [list], the dictionary returned by [compare_topologies] is a
    [gmap] keyed by strings.

    The numbers of the program are IEEE binary64 values handled by Python
    and numpy.  Their scalar arithmetic is the interface [Float64], the
    numpy routines the program calls are the interface [Numpy]; the program
    is written once over both interfaces.  Two instances are given at the
    end of the definitions: hardware binary64 ([PrimFloat]) and exact
    rational arithmetic ([Q]). *)

From Stdlib Require Import ZArith QArith Qabs Floats Lia Znumtheory.
From stdpp Require Import base list gmap strings pretty.

Open Scope Z_scope.

(** ** Exceptions and results *)

(** One constructor per [raise] site of the source, named after the Python
    class raised there, plus the bounds check Python itself performs on a
    subscript.  In the vocabulary of the specification:
    [ValueError_degree] is InvalidDegreeError,
    [RuntimeError_uninitialized] is BasisUninitializedError,
    [IndexError_basis] is InsufficientBasisDegreeError (it carries the two
    numbers formatted into the message: the stored degree and the index),
    [ValueError_singular] is SingularTopologyError. *)
Inductive exn : Type :=
  | ValueError_degree
  | RuntimeError_uninitialized
  | IndexError_basis (degree idx : Z)
  | ValueError_singular
  | IndexError_out_of_range.

Inductive result (A : Type) : Type :=
  | Ok (a : A)
  | Raise (e : exn).
Arguments Ok {A} a.
Arguments Raise {A} e.

#[global] Instance result_ret : MRet result := @Ok.
#[global] Instance result_bind : MBind result :=
  λ A B f r, match r with Ok a => f a | Raise e => Raise e end.

(** A method of an object with state [S]: it returns a value or raises,
    and leaves a state behind in both cases. *)
Definition method (S A : Type) : Type := S → result A * S.

#[global] Instance method_ret {S} : MRet (method S) := λ A a s, (Ok a, s).
#[global] Instance method_bind {S} : MBind (method S) :=
  λ A B f m s, match m s with
               | (Ok a, s') => f a s'
               | (Raise e, s') => (Raise e, s')
               end.

Definition raise {S A} (e : exn) : method S A := λ s, (Raise e, s).
Definition gets {S A} (f : S → A) : method S A := λ s, (Ok (f s), s).
Definition modify {S} (f : S → S) : method S unit := λ s, (Ok tt, f s).
Definition lift {S A} (r : result A) : method S A := λ s, (r, s).

(** ** Python lists *)

Definition len {A} (l : list A) : Z := Z.of_nat (length l).

(** [range(a, b)] *)
Definition range (a b : Z) : list Z := seqZ a (b - a).

(** [l * n]: a list repeated; a count that is zero or negative gives []. *)
Definition py_repeat {A} (l : list A) (n : Z) : list A :=
  mjoin (replicate (Z.to_nat n) l).

(** The position a subscript [i] denotes in a sequence of [n] items:
    negative subscripts count from the end, anything else out of
    [-n .. n-1] raises IndexError. *)
Definition subscript (n : nat) (i : Z) : result nat :=
  if bool_decide (0 ≤ i < Z.of_nat n) then Ok (Z.to_nat i)
  else if bool_decide (- Z.of_nat n ≤ i < 0) then Ok (Z.to_nat (Z.of_nat n + i))
  else Raise IndexError_out_of_range.

(** [l[i]] *)
Definition getitem {A} (l : list A) (i : Z) : result A :=
  p ← subscript (length l) i;
  match l !! p with
  | Some x => Ok x
  | None => Raise IndexError_out_of_range
  end.

(** [for x in it: acc = body(x, acc)], stopping at the first exception. *)
Fixpoint for_ {M} `{MBind M, MRet M} {A} (it : list Z)
    (body : Z → A → M A) (acc : A) : M A :=
  match it with
  | [] => mret acc
  | x :: it' => acc' ← body x acc; for_ it' body acc'
  end.

(** ** Numbers *)

(** Scalar binary64 arithmetic as Python and numpy perform it. *)
Class Float64 (F : Type) : Type := {
  of_int : Z → F;            (* float(n); the literals 0.0 and 1.0 *)
  fadd : F → F → F;
  fsub : F → F → F;
  fmul : F → F → F;
  fdiv : F → F → F;
  fabs : F → F;
  fleb : F → F → bool;       (* <= *)
  feqb : F → F → bool;       (* == *)
  isfinite : F → bool;
}.

(** The numpy routines the program calls.  [np_reciprocal] and [np_power]
    act on arrays element by element: the scalar function is the member,
    the program maps it over the array. *)
Class Numpy (F : Type) `{Float64 F} : Type := {
  np_reciprocal : F → F;
  np_power : F → Z → F;
  np_sum : list F → F;
  np_linalg_det : list (list F) → F;
  np_isclose : F → F → bool;
}.

Section Program.
Context {F : Type} `{Numpy F}.

(** The literals [0.0] and [1.0]. *)
Definition lit_0_0 : F := of_int 0.
Definition lit_1_0 : F := of_int 1.

(** Python's builtin [sum]: it starts from the integer 0 and adds the
    items from left to right. *)
Definition py_sum (xs : list F) : F := foldl fadd (of_int 0) xs.

(** [np.zeros((r, c))] *)
Definition np_zeros (r c : Z) : list (list F) :=
  replicate (Z.to_nat r) (replicate (Z.to_nat c) lit_0_0).

(** [matrix[i, j] = v] *)
Definition setitem2 (matrix : list (list F)) (i j : Z) (v : F)
    : result (list (list F)) :=
  p ← subscript (length matrix) i;
  match matrix !! p with
  | Some row =>
      q ← subscript (length row) j;
      Ok (<[p := <[q := v]> row]> matrix)
  | None => Raise IndexError_out_of_range
  end.

(** ** The object *)

Record SchurSieve : Type := {
  _primes : list F;
  _h_basis : list F;
  _degree : Z;
}.

(** [__init__], after [_load_data] has produced the array of primes. *)
Definition __init__ (data : list F) : SchurSieve :=
  {| _primes := data; _h_basis := []; _degree := 0 |}.

(** The power sums [p_sums] of [compute_basis]: entry [k-1] is [p_k]. *)
Definition power_sums (primes : list F) (max_degree : Z) : list F :=
  let betas := np_reciprocal <$> primes in
  (λ k, np_sum ((λ b, np_power b k) <$> betas)) <$> range 1 (max_degree + 1).

(** The generator [p_sums[k-1] * h[n-k] for k in range(1, n+1)]. *)
Definition newton_terms (p_sums h : list F) (n : Z) : result (list F) :=
  mapM (λ k, p ← getitem p_sums (k - 1);
             x ← getitem h (n - k);
             mret (fmul p x)) (range 1 (n + 1)).

Definition compute_basis (max_degree : Z) : method SchurSieve unit :=
  if bool_decide (max_degree ≤ 0) then raise ValueError_degree
  else
    primes ← gets _primes;
    let p_sums := power_sums primes max_degree in
    h ← lift (for_ (range 1 (max_degree + 1)) (λ n h,
                terms ← newton_terms p_sums h n;
                let term_sum := py_sum terms in
                mret (h ++ [fdiv term_sum (of_int n)])) [lit_1_0]);
    modify (λ self, {| _primes := _primes self;
                       _h_basis := h;
                       _degree := max_degree |}).

(** The rebinding of [mu] at the head of [_construct_jacobi_trudi]. *)
Definition padded (lam mu : list Z) : list Z :=
  let k := len lam in
  if bool_decide (len mu ≠ k) then mu ++ py_repeat [0] (k - len mu) else mu.

Definition _construct_jacobi_trudi (lam mu : list Z)
    : method SchurSieve (list (list F)) :=
  let k := len lam in
  let mu := padded lam mu in
  for_ (range 0 k) (λ i matrix,
    for_ (range 0 k) (λ j matrix,
      lam_i ← lift (getitem lam i);
      mu_j ← lift (getitem mu j);
      let idx := lam_i - mu_j - i + j in
      if bool_decide (idx < 0) then lift (setitem2 matrix i j lit_0_0)
      else
        h_basis ← gets _h_basis;
        if bool_decide (idx >= len h_basis) then
          degree ← gets _degree;
          raise (IndexError_basis degree idx)
        else
          v ← lift (getitem h_basis idx);
          lift (setitem2 matrix i j v)) matrix) (np_zeros k k).

Definition evaluate_partition (lam : list Z) (mu : option (list Z))
    : method SchurSieve F :=
  let mu := match mu with
            | None => py_repeat [0] (len lam)
            | Some mu => mu
            end in
  h_basis ← gets _h_basis;
  if bool_decide (len h_basis = 0) then raise RuntimeError_uninitialized
  else
    matrix ← _construct_jacobi_trudi lam mu;
    mret (np_linalg_det matrix).

Definition compare_topologies (config_a config_b : list Z * list Z)
    : method SchurSieve (gmap string F) :=
  s_a ← evaluate_partition config_a.1 (Some config_a.2);
  s_b ← evaluate_partition config_b.1 (Some config_b.2);
  if np_isclose s_a lit_0_0 then raise ValueError_singular
  else mret (<["capacity_denominator" := s_a]>
             (<["capacity_numerator" := s_b]>
              (<["chi_ratio" := fdiv s_b s_a]> ∅))).

(** ** States of the evaluator and vocabulary of the statements *)

(** Uninitialized: the basis is empty, as [__init__] leaves it. *)
Definition Uninitialized (self : SchurSieve) : Prop := _h_basis self = [].

(** BasisReady: the state left by a call of [compute_basis] that returned. *)
Definition BasisReady (self : SchurSieve) : Prop :=
  ∃ self0 max_degree, compute_basis max_degree self0 = (Ok tt, self).

(** The calls a client can make, and the evaluator each leaves behind. *)
Inductive call : Type :=
  | call_compute_basis (max_degree : Z)
  | call_evaluate_partition (lam : list Z) (mu : option (list Z))
  | call_compare_topologies (config_a config_b : list Z * list Z).

Definition after (c : call) (self : SchurSieve) : SchurSieve :=
  match c with
  | call_compute_basis max_degree => (compute_basis max_degree self).2
  | call_evaluate_partition lam mu => (evaluate_partition lam mu self).2
  | call_compare_topologies config_a config_b =>
      (compare_topologies config_a config_b self).2
  end.

(** The evaluators a client can hold: constructed over [data], then used. *)
Inductive reachable (data : list F) : SchurSieve → Prop :=
  | reachable_init : reachable data (__init__ data)
  | reachable_call c self :
      reachable data self → reachable data (after c self).

(** The value [mu] has in [evaluate_partition] once the default is filled. *)
Definition mu_argument (lam : list Z) (mu : option (list Z)) : list Z :=
  match mu with
  | None => py_repeat [0] (len lam)
  | Some mu => mu
  end.

(** Row-major order on cells: [(i', j')] is visited before [(i, j)]. *)
Definition before (i' j' i j : nat) : Prop :=
  (i' < i)%nat ∨ (i' = i ∧ (j' < j)%nat).

(** Cell [(i, j)] of a matrix. *)
Definition cell_at (matrix : list (list F)) (i j : nat) : option F :=
  matrix !! i ≫= (.!! j).

Definition square (k : nat) (matrix : list (list F)) : Prop :=
  length matrix = k ∧ Forall (λ row, length row = k) matrix.

(** What one pass of the inner loop body computes for cell [(i, j)] before
    it stores it: the entry, or the exception. *)
Definition entry (self : SchurSieve) (lam mu : list Z) (i j : Z) : result F :=
  lam_i ← getitem lam i;
  mu_j ← getitem mu j;
  let idx := lam_i - mu_j - i + j in
  if bool_decide (idx < 0) then Ok lit_0_0
  else if bool_decide (idx >= len (_h_basis self))
       then Raise (IndexError_basis (_degree self) idx)
       else getitem (_h_basis self) idx.

(** Cell [(i, j)] of the matrix holds the entry computed for it. *)
Definition filled (self : SchurSieve) (lam mu : list Z)
    (matrix : list (list F)) (i j : nat) : Prop :=
  ∃ v, entry self lam mu (Z.of_nat i) (Z.of_nat j) = Ok v
       ∧ cell_at matrix i j = Some v.

(** The power sum [p_k] of the reciprocals of the primes. *)
Definition p_ (primes : list F) (k : Z) : F :=
  np_sum ((λ prime, np_power (np_reciprocal prime) k) <$> primes).

(** [h_n] read off a basis (0.0 for a degree outside it). *)
Definition h_ (h : list F) (n : Z) : F :=
  if bool_decide (0 ≤ n) then default lit_0_0 (h !! Z.to_nat n)
  else lit_0_0.

(** The right-hand side of Newton's identity at [n], recomputed from the
    primes and the basis: the sum over [k = 1..n] of [p_k * h_(n-k)]. *)
Definition newton_rhs (primes h : list F) (n : Z) : F :=
  py_sum ((λ k, fmul (p_ primes k) (h_ h (n - k))) <$> range 1 (n + 1)).

(** The same right-hand side written out on its own, with nothing of the
    program in it: [newton_partial primes h n m] is
    [0 + p_1 * h_(n-1) + ... + p_m * h_(n-m)], added from the left in
    floating point, and [newton_sum primes h n] is the sum of all [n]
    terms. *)
Fixpoint newton_partial (primes h : list F) (n : Z) (m : nat) : F :=
  match m with
  | O => of_int 0
  | S m' =>
      fadd (newton_partial primes h n m')
           (fmul (p_ primes (Z.of_nat m)) (h_ h (n - Z.of_nat m)))
  end.

Definition newton_sum (primes h : list F) (n : Z) : F :=
  newton_partial primes h n (Z.to_nat n).

End Program.

Arguments SchurSieve F : clear implicits.

(** ** Reference models of the numpy routines

    Written over [Float64] alone.  [np.reciprocal] is [1.0 / x].
    [np.power] with a whole exponent is taken as a product of copies of
    the base; [np.sum] as the left-to-right sum (what numpy does for
    fewer than eight items).  [np.linalg.det] follows LAPACK: an LU
    factorisation with partial pivoting, the determinant being the signed
    product of the pivots, 1.0 for the empty matrix and 0.0 when a pivot
    vanishes.  [np.isclose] is numpy's test with its default tolerances
    [rtol = 1e-05] and [atol = 1e-08].

    These are models, not numpy: [np.power] calls [pow], [np.sum] adds
    pairwise from eight items on, and [np.linalg.det] forms the product
    as [sign * exp(sum of log|pivot|)], so a value computed here can
    differ from numpy's in its last bits.  The theorems stated over the
    interfaces do not depend on the models; only the statements about
    concrete binary64 runs do. *)
Section Models.
Context {F : Type} `{Float64 F}.

Definition model_reciprocal (x : F) : F := fdiv (of_int 1) x.

Definition model_power (b : F) (k : Z) : F :=
  match k with
  | Z0 => of_int 1
  | Zpos p => Pos.iter_op fmul p b
  | Zneg p => fdiv (of_int 1) (Pos.iter_op fmul p b)
  end.

Definition model_sum (xs : list F) : F := foldl fadd (of_int 0) xs.

Definition fgtb (a b : F) : bool := fleb b a && negb (feqb a b).

(** Position of the first entry of largest magnitude among [col], whose
    first entry has position [i]; [best] and [big] are the position and
    magnitude found so far. *)
Fixpoint pivot_index (col : list F) (i best : nat) (big : F) : nat :=
  match col with
  | [] => best
  | x :: col' =>
      if fgtb (fabs x) big then pivot_index col' (S i) i (fabs x)
      else pivot_index col' (S i) best big
  end.

Definition first_entry (row : list F) : F := default (of_int 0) (head row).

Definition swap_rows (M : list (list F)) (p : nat) : list (list F) :=
  match M !! 0%nat, M !! p with
  | Some r0, Some rp => <[p := r0]> (<[0%nat := rp]> M)
  | _, _ => M
  end.

Fixpoint det_lu (n : nat) (M : list (list F)) : F :=
  match n with
  | O => of_int 1
  | S n' =>
      let col := first_entry <$> M in
      let p := pivot_index (tail col) 1 0 (fabs (first_entry col)) in
      match swap_rows M p with
      | [] => of_int 1
      | top :: rest =>
          let a := first_entry top in
          if feqb a (of_int 0) then of_int 0
          else
            let eliminate row :=
              let l := fdiv (first_entry row) a in
              zip_with (λ x y, fsub x (fmul l y)) (tail row) (tail top) in
            let d := fmul a (det_lu n' (eliminate <$> rest)) in
            if bool_decide (p = 0%nat) then d else fsub (of_int 0) d
      end
  end.

Definition model_det (M : list (list F)) : F := det_lu (length M) M.

Definition rtol : F := fdiv (of_int 1) (of_int 100000).
Definition atol : F := fdiv (of_int 1) (of_int 100000000).

Definition model_isclose (a b : F) : bool :=
  if isfinite a && isfinite b
  then fleb (fabs (fsub a b)) (fadd atol (fmul rtol (fabs b)))
  else feqb a b.

End Models.

(** ** Hardware binary64 *)
Module Binary64.

(** [float(z)] for [|z| < 2^63], the range of the machine integer the
    conversion goes through; Python converts larger integers too, this
    definition does not model them. *)
Definition float_of_int (z : Z) : float :=
  match z with
  | Z0 => 0%float
  | Zpos _ => PrimFloat.of_uint63 (Uint63.of_Z z)
  | Zneg p => PrimFloat.opp (PrimFloat.of_uint63 (Uint63.of_Z (Zpos p)))
  end.

#[export] Instance float64 : Float64 float := {|
  of_int := float_of_int;
  fadd := PrimFloat.add;
  fsub := PrimFloat.sub;
  fmul := PrimFloat.mul;
  fdiv := PrimFloat.div;
  fabs := PrimFloat.abs;
  fleb := PrimFloat.leb;
  feqb := PrimFloat.eqb;
  isfinite := PrimFloat.is_finite;
|}.

#[export] Instance numpy : Numpy float := {|
  np_reciprocal := model_reciprocal;
  np_power := model_power;
  np_sum := model_sum;
  np_linalg_det := model_det;
  np_isclose := model_isclose;
|}.

End Binary64.

(** ** Exact rational arithmetic *)
Module Exact.

#[export] Instance float64 : Float64 Q := {|
  of_int := inject_Z;
  fadd := Qplus;
  fsub := Qminus;
  fmul := Qmult;
  fdiv := Qdiv;
  fabs := Qabs;
  fleb := Qle_bool;
  feqb := Qeq_bool;
  isfinite := λ _, true;
|}.

#[export] Instance numpy : Numpy Q := {|
  np_reciprocal := model_reciprocal;
  np_power := model_power;
  np_sum := model_sum;
  np_linalg_det := model_det;
  np_isclose := model_isclose;
|}.

End Exact.

(** ** The scenario of the specification

    Primes 2, 3, 5; the evaluator as constructed, and after
    [compute_basis(2)].  Literals such as 0.734479 are written as the
    quotient of two integers, which both instances round as Python rounds
    the literal. *)
Section Scenario.
Context {F : Type} `{Numpy F}.

Definition fresh : SchurSieve F := __init__ (of_int <$> [2; 3; 5]).
Definition ready : SchurSieve F := (compute_basis 2 fresh).2.

Definition decimal (digits : Z) (places : nat) : F :=
  fdiv (of_int digits) (of_int (10 ^ Z.of_nat places)).

(** [abs(x - y) <= tol] *)
Definition within (tol x y : F) : bool := fleb (fabs (fsub x y)) tol.

End Scenario.

(** ** The validation script, [src/test_run.py]

    [generate_sample_primes] fills a list by trial division and writes it
    to a file, one prime per line.  Its [while] loop has no bound in the
    source; it is run here for at most [fuel] iterations, [None] meaning
    that the fuel ran out.  [int(chk ** 0.5)] is a floating-point
    computation: it is the parameter [int_sqrt].  The file system is a map
    from names to contents. *)
Section SamplePrimes.
Variable int_sqrt : Z → Z.

(** The loop [for d in range(...): if chk % d == 0: break] with its
    [else]: [true] when the loop runs to its end, so that the [else]
    branch is taken. *)
Fixpoint for_else (ds : list Z) (chk : Z) : bool :=
  match ds with
  | [] => true
  | d :: ds' =>
      if bool_decide (chk `mod` d = 0) then false else for_else ds' chk
  end.

Fixpoint sample_loop (fuel : nat) (n : Z) (primes : list Z) (chk : Z)
    : option (list Z) :=
  match fuel with
  | O => None
  | S fuel' =>
      if bool_decide (len primes < n) then
        let primes :=
          if for_else (range 2 (int_sqrt chk + 1)) chk
          then primes ++ [chk] else primes in
        sample_loop fuel' n primes (chk + 1)
      else Some primes
  end.

Definition newline : string := String (Ascii.ascii_of_nat 10) EmptyString.

(** What the loop [for p in primes: f.write(f"{p}\n")] leaves in the
    file. *)
Definition written (primes : list Z) : string :=
  foldl (λ text p, text +:+ pretty p +:+ newline) EmptyString primes.

Definition generate_sample_primes (fuel : nat) (n : option Z)
    (files : gmap string string) : option (string * gmap string string) :=
  let n := default 1000 n in
  primes ← sample_loop fuel n [] 2;
  Some ("primes_sample.txt",
        <["primes_sample.txt" := written primes]> files).

End SamplePrimes.

(** The two configurations [run_test] compares, and the degree it asks
    for. *)
Definition twin_cfg : list Z * list Z := ([4; 4; 1], [2; 1; 0]).
Definition sexy_cfg : list Z * list Z := ([8; 8; 1], [2; 1; 0]).
Definition test_degree : Z := 20.

#[global] Instance prime_decision (p : Z) : Decision (prime p) := prime_dec p.

(** The primes below [c], in increasing order. *)
Definition primes_below (c : Z) : list Z := filter prime (range 2 c).

(** [int(x)] of a binary64 value: truncation toward zero (Python raises
    on an infinity or a NaN; 0 stands for that here). *)
Definition int_of_float (x : float) : Z :=
  match Prim2SF x with
  | S754_finite negative m e =>
      let magnitude :=
        if bool_decide (0 ≤ e) then Z.pos m * 2 ^ e
        else Z.pos m `div` 2 ^ (- e) in
      if negative then - magnitude else magnitude
  | _ => 0
  end.

(** [int(chk ** 0.5)] in binary64, the power taken as the correctly
    rounded square root. *)
Definition int_sqrt_binary64 (chk : Z) : Z :=
  int_of_float (PrimFloat.sqrt (Binary64.float_of_int chk)).

(** * Properties *)

(** ** Loops *)
Section Loops.
Context {S A : Type}.

(** Invariant rule for a loop whose body reads the object but does not
    write it: [P] relates the items already visited to the accumulator,
    [Q] holds of whatever is raised. *)
Lemma for_method_inv (P : list Z → A → Prop) (Q : exn → Prop)
    (it : list Z) (body : Z → A → method S A) (a : A) (s : S) :
  P [] a →
  (∀ pre x post acc, it = pre ++ x :: post → P pre acc →
     match body x acc s with
     | (Ok acc', s') => s' = s ∧ P (pre ++ [x]) acc'
     | (Raise e, s') => s' = s ∧ Q e
     end) →
  match for_ it body a s with
  | (Ok a', s') => s' = s ∧ P it a'
  | (Raise e, s') => s' = s ∧ Q e
  end.
Proof.
  intros H0 Hstep.
  cut (∀ rest pre acc, it = pre ++ rest → P pre acc →
         match for_ rest body acc s with
         | (Ok a', s') => s' = s ∧ P it a'
         | (Raise e, s') => s' = s ∧ Q e
         end).
  { intros G. by apply (G it [] a). }
  induction rest as [|x rest IH]; intros pre acc Hit HP.
  - rewrite app_nil_r in Hit. subst pre. by split.
  - cbn [for_]. unfold mbind, method_bind.
    specialize (Hstep pre x rest acc Hit HP).
    destruct (body x acc s) as [[acc'|e] s']; destruct Hstep as [-> H1];
      [|done].
    apply (IH (pre ++ [x])); [by rewrite <- app_assoc | done].
Qed.

Lemma for_result_inv (P : list Z → A → Prop) (Q : exn → Prop)
    (it : list Z) (body : Z → A → result A) (a : A) :
  P [] a →
  (∀ pre x post acc, it = pre ++ x :: post → P pre acc →
     match body x acc with
     | Ok acc' => P (pre ++ [x]) acc'
     | Raise e => Q e
     end) →
  match for_ it body a with
  | Ok a' => P it a'
  | Raise e => Q e
  end.
Proof.
  intros H0 Hstep.
  cut (∀ rest pre acc, it = pre ++ rest → P pre acc →
         match for_ rest body acc with
         | Ok a' => P it a'
         | Raise e => Q e
         end).
  { intros G. by apply (G it [] a). }
  induction rest as [|x rest IH]; intros pre acc Hit HP.
  - rewrite app_nil_r in Hit. by subst pre.
  - cbn [for_]. unfold mbind, result_bind.
    specialize (Hstep pre x rest acc Hit HP).
    destruct (body x acc) as [acc'|e]; [|done].
    apply (IH (pre ++ [x])); [by rewrite <- app_assoc | done].
Qed.

(** Two bodies that agree on the items of the iterable run alike. *)
Lemma for_method_ext (it : list Z) (body1 body2 : Z → A → method S A) a s :
  (∀ x acc s', x ∈ it → body1 x acc s' = body2 x acc s') →
  for_ it body1 a s = for_ it body2 a s.
Proof.
  revert a s. induction it as [|x it IH]; intros a s Hext; [done|].
  cbn [for_]. unfold mbind, method_bind.
  rewrite Hext by left.
  destruct (body2 x a s) as [[a'|e] s']; [|done].
  apply IH. intros y acc s'' Hy. apply Hext. by right.
Qed.

End Loops.

(** ** Subscripts, ranges and repetition *)
Section PyLists.
Context {A : Type}.
Implicit Types l : list A.

Lemma len_nonneg l : 0 ≤ len l.
Proof. unfold len. lia. Qed.

Lemma subscript_nonneg n i :
  0 ≤ i < Z.of_nat n → subscript n i = Ok (Z.to_nat i).
Proof. intros Hi. unfold subscript. by rewrite bool_decide_eq_true_2. Qed.

Lemma getitem_nonneg l i :
  0 ≤ i < len l →
  ∃ x, l !! Z.to_nat i = Some x ∧ getitem l i = Ok x.
Proof.
  intros Hi. unfold getitem. rewrite subscript_nonneg by done. cbn.
  destruct (lookup_lt_is_Some_2 l (Z.to_nat i)) as [x Hx];
    [unfold len in Hi; lia|].
  exists x. by rewrite Hx.
Qed.

Lemma getitem_lookup l i x :
  0 ≤ i → l !! Z.to_nat i = Some x → getitem l i = Ok x.
Proof.
  intros Hi Hx. pose proof (lookup_lt_Some _ _ _ Hx) as Hlt.
  destruct (getitem_nonneg l i) as (y & Hy & ->); [unfold len; lia|].
  congruence.
Qed.

Lemma elem_of_range a b x : x ∈ range a b ↔ a ≤ x < b.
Proof. unfold range. rewrite elem_of_seqZ. lia. Qed.

(** The item a [range] reaches after the items [pre]. *)
Lemma range_split a b pre x post :
  range a b = pre ++ x :: post → x = a + len pre ∧ a ≤ x < b.
Proof.
  intros Hsplit.
  assert (range a b !! length pre = Some x) as Hx
    by (rewrite Hsplit; apply list_lookup_middle; done).
  unfold range in Hx. apply lookup_seqZ in Hx. unfold len. lia.
Qed.

Lemma py_repeat_nonpos l n : n ≤ 0 → py_repeat l n = [].
Proof.
  intros Hn. unfold py_repeat. by replace (Z.to_nat n) with 0%nat by lia.
Qed.

Lemma py_repeat_singleton (x : A) n :
  py_repeat [x] n = replicate (Z.to_nat n) x.
Proof.
  unfold py_repeat. induction (Z.to_nat n) as [|m IH]; [done|].
  cbn. f_equal. exact IH.
Qed.

End PyLists.

Lemma padded_length lam mu : len lam ≤ len (padded lam mu).
Proof.
  unfold padded. cbv zeta. case_bool_decide as Hne; [|lia].
  unfold len in *. rewrite length_app, py_repeat_singleton, length_replicate.
  lia.
Qed.

(** A [mu] longer than [lam] is left as it is. *)
Lemma padded_longer lam mu : len lam < len mu → padded lam mu = mu.
Proof.
  intros Hlt. unfold padded. cbv zeta.
  rewrite bool_decide_eq_true_2 by lia.
  rewrite py_repeat_nonpos by lia. apply app_nil_r.
Qed.

(** A shorter [mu] is extended by zeros to the length of [lam]. *)
Lemma padded_shorter lam mu :
  len mu ≤ len lam →
  padded lam mu = mu ++ replicate (length lam - length mu) 0.
Proof.
  intros Hle. unfold padded. cbv zeta. case_bool_decide as Hne.
  - rewrite py_repeat_singleton. do 2 f_equal. unfold len. lia.
  - replace (length lam - length mu)%nat with 0%nat
      by (unfold len in *; lia).
    by rewrite app_nil_r.
Qed.

(** ** The Jacobi-Trudi matrix *)
Section Matrix.
Context {F : Type} `{Numpy F}.
Implicit Types (self : SchurSieve F) (lam mu : list Z) (M : list (list F)).

Lemma np_zeros_square k : 0 ≤ k → square (Z.to_nat k) (np_zeros k k).
Proof.
  intros Hk. unfold np_zeros. split.
  - apply length_replicate.
  - apply Forall_replicate, length_replicate.
Qed.

(** A store into a square matrix, inside its bounds: it succeeds, the
    matrix stays square, the cell holds the value, no other cell moves. *)
Lemma setitem2_square k M i j v :
  square k M → (i < k)%nat → (j < k)%nat →
  ∃ M', setitem2 M (Z.of_nat i) (Z.of_nat j) v = Ok M'
        ∧ square k M'
        ∧ cell_at M' i j = Some v
        ∧ ∀ i' j', (i', j') ≠ (i, j) → cell_at M' i' j' = cell_at M i' j'.
Proof.
  intros [Hlen Hrows] Hi Hj. unfold setitem2.
  rewrite subscript_nonneg by lia. cbn. rewrite Nat2Z.id.
  destruct (lookup_lt_is_Some_2 M i) as [row Hrow]; [lia|].
  rewrite Hrow.
  assert (length row = k) as Hrowlen
    by (eapply (proj1 (Forall_lookup _ _) Hrows); eauto).
  rewrite subscript_nonneg by lia. cbn. rewrite Nat2Z.id.
  eexists; split; [reflexivity|]. split; [|split].
  - split; [by rewrite length_insert|].
    apply Forall_insert; [done|]. by rewrite length_insert.
  - unfold cell_at. rewrite list_lookup_insert_eq by lia. cbn.
    apply list_lookup_insert_eq. lia.
  - intros i' j' Hne. unfold cell_at.
    destruct (decide (i' = i)) as [->|Hi'].
    + rewrite list_lookup_insert_eq by lia. rewrite Hrow. cbn.
      apply list_lookup_insert_ne. congruence.
    + by rewrite list_lookup_insert_ne.
Qed.

(** The body of the inner loop: compute the entry, then store it.  The
    object is only read. *)
Lemma cell_body_run self lam mu i j M :
  (lam_i ← lift (getitem lam i);
   mu_j ← lift (getitem mu j);
   let idx := lam_i - mu_j - i + j in
   if bool_decide (idx < 0) then lift (setitem2 M i j lit_0_0)
   else
     h_basis ← gets _h_basis;
     if bool_decide (idx >= len h_basis) then
       degree ← gets _degree;
       raise (IndexError_basis degree idx)
     else
       v ← lift (getitem h_basis idx);
       lift (setitem2 M i j v)) self
  = (v ← entry self lam mu i j; setitem2 M i j v, self).
Proof.
  unfold entry, mbind, method_bind, result_bind, lift, gets, raise.
  destruct (getitem lam i) as [lam_i|]; [|done].
  destruct (getitem mu j) as [mu_j|]; [|done].
  cbv zeta. case_bool_decide; [done|].
  case_bool_decide; [done|].
  by destruct (getitem (_h_basis self) _).
Qed.

(** An entry that raises once its two subscripts are in range raises the
    degree error, at an index past the end of the basis. *)
Lemma entry_raise self lam mu i j e :
  0 ≤ i < len lam → 0 ≤ j < len mu →
  entry self lam mu i j = Raise e →
  ∃ a b, lam !! Z.to_nat i = Some a ∧ mu !! Z.to_nat j = Some b
         ∧ len (_h_basis self) ≤ a - b - i + j
         ∧ e = IndexError_basis (_degree self) (a - b - i + j).
Proof.
  intros Hi Hj. unfold entry.
  destruct (getitem_nonneg lam i Hi) as (a & Ha & ->).
  destruct (getitem_nonneg mu j Hj) as (b & Hb & ->).
  cbn. case_bool_decide as Hneg; [done|].
  case_bool_decide as Hbig.
  - intros [= <-]. exists a, b. repeat split; [done..|lia].
  - destruct (getitem_nonneg (_h_basis self) (a - b - i + j)) as (v & _ & ->);
      [lia|done].
Qed.

(** The value of an entry whose subscripts are in range. *)
Lemma entry_value self lam mu i j a b :
  0 ≤ i → 0 ≤ j →
  lam !! Z.to_nat i = Some a → mu !! Z.to_nat j = Some b →
  entry self lam mu i j =
    let idx := a - b - i + j in
    if bool_decide (idx < 0) then Ok lit_0_0
    else if bool_decide (idx >= len (_h_basis self))
         then Raise (IndexError_basis (_degree self) idx)
         else match _h_basis self !! Z.to_nat idx with
              | Some v => Ok v
              | None => Raise IndexError_out_of_range
              end.
Proof.
  intros Hi Hj Ha Hb. unfold entry.
  rewrite (getitem_lookup lam i a), (getitem_lookup mu j b) by done.
  cbn. case_bool_decide; [done|]. case_bool_decide; [done|].
  by destruct (getitem_nonneg (_h_basis self) (a - b - i + j)) as (v & -> & ->);
    [lia|].
Qed.

(** What [_construct_jacobi_trudi] does, in one statement: it never
    writes the object; when it returns, the matrix is square of side
    [len(lam)] and every cell holds its entry; when it raises, some cell's
    entry raised just that. *)
Lemma construct_spec self lam mu :
  match _construct_jacobi_trudi lam mu self with
  | (Ok M, self') =>
      self' = self ∧ square (length lam) M
      ∧ ∀ i j, (i < length lam)%nat → (j < length lam)%nat →
               filled self lam (padded lam mu) M i j
  | (Raise e, self') =>
      self' = self
      ∧ ∃ i j, (i < length lam)%nat ∧ (j < length lam)%nat
               ∧ entry self lam (padded lam mu) (Z.of_nat i) (Z.of_nat j)
                 = Raise e
  end.
Proof.
  unfold _construct_jacobi_trudi. cbv zeta.
  set (mu' := padded lam mu). set (k := length lam).
  pose (Q := λ e : exn, ∃ i j, (i < k)%nat ∧ (j < k)%nat
       ∧ entry self lam mu' (Z.of_nat i) (Z.of_nat j) = Raise e).
  pose (P := λ (pre : list Z) M, square k M
       ∧ ∀ i j, Z.of_nat i ∈ pre → (j < k)%nat → filled self lam mu' M i j).
  pose proof (for_method_inv (S:=SchurSieve F) P Q (range 0 (len lam))) as Houter.
  match goal with |- context [@for_ _ _ _ _ _ ?body ?a] =>
    specialize (Houter body a self) end.
  lapply Houter; clear Houter.
  - intros Houter. lapply Houter; clear Houter.
    + destruct (for_ (M:=method (SchurSieve F)) _ _ _ self) as [[M|e] self']; [|done].
      intros (-> & Hsq & Hfill). split; [done|]. split; [done|].
      intros i j Hi Hj. apply Hfill; [|done].
      apply elem_of_range. unfold len. lia.
    + intros pre x post M Hsplit [Hsq Hfill].
      apply range_split in Hsplit as [_ Hx].
      pose (P' := λ (pre' : list Z) M', square k M'
         ∧ (∀ i j, filled self lam mu' M i j → filled self lam mu' M' i j)
         ∧ ∀ j, Z.of_nat j ∈ pre' → filled self lam mu' M' (Z.to_nat x) j).
      pose proof (for_method_inv (S:=SchurSieve F) P' Q (range 0 (len lam))) as Hinner.
      match goal with |- context [@for_ _ _ _ _ _ ?body ?a] =>
        specialize (Hinner body a self) end.
      lapply Hinner; clear Hinner.
      * intros Hinner. lapply Hinner; clear Hinner.
        -- destruct (for_ (M:=method (SchurSieve F)) _ _ _ self) as [[M'|e] self']; [|done].
           intros (-> & Hsq' & Hkeep & Hrow). split; [done|]. split; [done|].
           intros i j [Hi|Hi%list_elem_of_singleton]%elem_of_app Hj.
           ++ by apply Hkeep, Hfill.
           ++ rewrite <- Hi, Nat2Z.id in Hrow. apply Hrow, elem_of_range.
              unfold len. lia.
        -- intros pre' y post' M' Hsplit' (Hsq' & Hkeep & Hrow).
           apply range_split in Hsplit' as [_ Hy].
           rewrite cell_body_run. unfold mbind, result_bind.
           destruct (entry self lam mu' x y) as [v|e] eqn:Hentry.
           ++ destruct (setitem2_square k M' (Z.to_nat x) (Z.to_nat y) v)
                as (M'' & Hset & Hsq'' & Hcell & Hother);
                [done|unfold len in *; lia..|].
              rewrite !Z2Nat.id in Hset by lia. rewrite Hset.
              split; [done|]. split; [done|].
              assert (filled self lam mu' M'' (Z.to_nat x) (Z.to_nat y))
                as Hnew.
              { exists v. by rewrite !Z2Nat.id by lia. }
              assert (∀ i j, filled self lam mu' M' i j →
                             filled self lam mu' M'' i j) as Hkeep'.
              { intros i j Hij.
                destruct (decide ((i, j) = (Z.to_nat x, Z.to_nat y)))
                  as [[= -> ->]|Hne]; [done|].
                destruct Hij as (w & Hw & Hc). exists w.
                by rewrite Hother. }
              split; [by auto|].
              intros j [Hj|Hj%list_elem_of_singleton]%elem_of_app.
              ** by apply Hkeep', Hrow.
              ** by rewrite <- Hj, Nat2Z.id in Hnew.
           ++ split; [done|]. exists (Z.to_nat x), (Z.to_nat y).
              rewrite !Z2Nat.id by lia. unfold len in *.
              repeat split; [lia..|done].
      * split; [done|]. split; [done|]. by intros j ?%elem_of_nil.
  - split; [|by intros i j ?%elem_of_nil].
    unfold k. rewrite <- (Nat2Z.id (length lam)). apply np_zeros_square.
    apply len_nonneg.
Qed.

End Matrix.

(** ** The homogeneous basis *)
Section Basis.
Context {F : Type} `{Numpy F}.
Implicit Types (self : SchurSieve F) (h primes : list F).

Lemma mapM_result_fmap {A B} (f : A → result B) (g : A → B) (l : list A) :
  (∀ x, x ∈ l → f x = Ok (g x)) → mapM f l = Ok (g <$> l).
Proof.
  induction l as [|x l IH]; intros Hf; [done|].
  cbn. rewrite Hf by left. cbn. rewrite IH; [done|].
  intros y Hy. apply Hf. by right.
Qed.

Lemma power_sums_lookup primes max_degree k :
  1 ≤ k ≤ max_degree →
  power_sums primes max_degree !! Z.to_nat (k - 1) = Some (p_ primes k).
Proof.
  intros Hk. unfold power_sums, range. cbv zeta.
  rewrite list_lookup_fmap, lookup_seqZ_lt by lia. cbn.
  replace (1 + Z.of_nat (Z.to_nat (k - 1))) with k by lia.
  unfold p_. by rewrite <- list_fmap_compose.
Qed.

Lemma h_lookup h n x : 0 ≤ n → h !! Z.to_nat n = Some x → h_ h n = x.
Proof.
  intros Hn Hx. unfold h_. by rewrite bool_decide_eq_true_2, Hx.
Qed.

Lemma h_app h x n : 0 ≤ n < len h → h_ (h ++ [x]) n = h_ h n.
Proof.
  intros Hn. unfold h_. rewrite bool_decide_eq_true_2 by lia.
  rewrite lookup_app_l; [done|]. unfold len in Hn. lia.
Qed.

(** Appending to the basis does not disturb the identity at the degrees
    already there: its right-hand side reads only lower degrees. *)
Lemma newton_rhs_app primes h x n :
  1 ≤ n ≤ len h → newton_rhs primes (h ++ [x]) n = newton_rhs primes h n.
Proof.
  intros Hn. unfold newton_rhs. f_equal. apply list_fmap_ext.
  intros i k Hk%list_elem_of_lookup_2%elem_of_range.
  rewrite h_app; [done|lia].
Qed.

(** The generator of one iteration yields the terms of the identity. *)
Lemma newton_terms_run primes max_degree h n :
  1 ≤ n ≤ max_degree → len h = n →
  newton_terms (power_sums primes max_degree) h n
  = Ok ((λ k, fmul (p_ primes k) (h_ h (n - k))) <$> range 1 (n + 1)).
Proof.
  intros Hn Hlen. unfold newton_terms. apply mapM_result_fmap.
  intros k Hk%elem_of_range.
  rewrite (getitem_lookup _ (k - 1) (p_ primes k));
    [|lia|apply power_sums_lookup; lia].
  destruct (getitem_nonneg h (n - k)) as (x & Hx & ->); [lia|].
  cbn. by rewrite (h_lookup h (n - k) x) by (done || lia).
Qed.

(** [compute_basis] on a positive degree: it returns, it replaces the
    basis and the degree and keeps the primes; the basis has
    [max_degree + 1] entries, starts with the literal 1.0, and its entry
    [n] is the quotient by [n] of the right-hand side of the identity. *)
Lemma compute_basis_spec self max_degree :
  1 ≤ max_degree →
  ∃ h, compute_basis max_degree self
       = (Ok tt, {| _primes := _primes self; _h_basis := h;
                    _degree := max_degree |})
     ∧ len h = max_degree + 1
     ∧ h !! 0%nat = Some lit_1_0
     ∧ ∀ n, 1 ≤ n ≤ max_degree →
         h !! Z.to_nat n
         = Some (fdiv (newton_rhs (_primes self) h n) (of_int n)).
Proof.
  intros HD. unfold compute_basis.
  rewrite bool_decide_eq_false_2 by lia.
  unfold mbind, method_bind, gets, lift, modify. cbv zeta.
  set (primes := _primes self).
  pose (P := λ (pre : list Z) h,
    len h = len pre + 1 ∧ h !! 0%nat = Some lit_1_0
    ∧ ∀ n, 1 ≤ n ≤ len pre →
        h !! Z.to_nat n = Some (fdiv (newton_rhs primes h n) (of_int n))).
  pose proof (for_result_inv P (λ _, False) (range 1 (max_degree + 1)))
    as Hloop.
  match goal with |- context [@for_ _ _ _ _ _ ?body ?a] =>
    specialize (Hloop body a) end.
  lapply Hloop; clear Hloop.
  - intros Hloop. lapply Hloop; clear Hloop.
    + destruct (for_ (M:=result) _ _ _) as [h|e]; [|done].
      intros (Hlen & Hh0 & Hrec). exists h.
      assert (len (range 1 (max_degree + 1)) = max_degree) as Hrange
        by (unfold len, range; rewrite length_seqZ; lia).
      rewrite Hrange in Hlen, Hrec. done.
    + intros pre x post h Hsplit (Hlen & Hh0 & Hrec).
      apply range_split in Hsplit as [Hx Hxle].
      unfold mbind, result_bind.
      rewrite (newton_terms_run primes max_degree h x) by lia.
      cbv zeta. unfold mret, result_ret.
      set (term_sum := py_sum _).
      assert (newton_rhs primes (h ++ [fdiv term_sum (of_int x)]) x
              = term_sum) as Hx_rhs.
      { rewrite newton_rhs_app by lia. done. }
      split; [|split].
      * unfold len in *. rewrite !length_app. cbn. lia.
      * by apply lookup_app_l_Some.
      * intros n Hn. unfold len in Hn. rewrite length_app in Hn. cbn in Hn.
        destruct (decide (n = x)) as [->|Hne].
        -- rewrite Hx_rhs.
           rewrite lookup_app_r by (unfold len in *; lia).
           replace (Z.to_nat x - length h)%nat with 0%nat
             by (unfold len in *; lia).
           done.
        -- assert (1 ≤ n ≤ len pre) as Hn' by (unfold len in *; lia).
           rewrite newton_rhs_app by lia.
           apply lookup_app_l_Some, Hrec, Hn'.
  - split; [done|]. split; [done|]. intros n Hn. unfold len in Hn.
    cbn in Hn. lia.
Qed.

(** A non-positive degree is refused and the object is left as it was. *)
Lemma compute_basis_refused self max_degree :
  max_degree ≤ 0 →
  compute_basis max_degree self = (Raise ValueError_degree, self).
Proof.
  intros HD. unfold compute_basis. by rewrite bool_decide_eq_true_2.
Qed.

(** What BasisReady gives: a positive degree and a basis one longer. *)
Lemma basis_ready_inv self :
  BasisReady self →
  1 ≤ _degree self ∧ len (_h_basis self) = _degree self + 1
  ∧ _h_basis self !! 0%nat = Some lit_1_0.
Proof.
  intros (self0 & D & Hrun).
  destruct (decide (D ≤ 0)) as [Hle|Hgt].
  - by rewrite compute_basis_refused in Hrun.
  - destruct (compute_basis_spec self0 D) as (h & Hrun' & Hlen & Hh0 & _);
      [lia|].
    rewrite Hrun' in Hrun. injection Hrun as <-. cbn. split; [lia|done].
Qed.

Lemma basis_ready_compute self max_degree :
  1 ≤ max_degree → BasisReady (compute_basis max_degree self).2.
Proof.
  intros HD. exists self, max_degree.
  destruct (compute_basis_spec self max_degree HD) as (h & -> & _). done.
Qed.

End Basis.

(** ** The public operations *)
Section Operations.
Context {F : Type} `{Numpy F}.
Implicit Types (self : SchurSieve F) (lam : list Z) (M : list (list F)).

(** [_construct_jacobi_trudi] leaves the object as it found it. *)
Lemma construct_reads self lam mu :
  (_construct_jacobi_trudi lam mu self).2 = self.
Proof.
  pose proof (construct_spec self lam mu) as Hspec.
  by destruct (_construct_jacobi_trudi lam mu self) as [[M|e] self'];
    destruct Hspec as [-> _].
Qed.

(** [evaluate_partition], run: the guard on the basis, then the matrix,
    then its determinant; the object comes back untouched. *)
Lemma evaluate_partition_run self lam mu :
  evaluate_partition lam mu self
  = (if bool_decide (len (_h_basis self) = 0)
     then Raise RuntimeError_uninitialized
     else M ← (_construct_jacobi_trudi lam (mu_argument lam mu) self).1;
          Ok (np_linalg_det M),
     self).
Proof.
  unfold evaluate_partition, mu_argument, mbind, method_bind, gets, raise.
  cbv zeta. case_bool_decide; [done|].
  pose proof (construct_reads self lam
    match mu with Some mu0 => mu0 | None => py_repeat [0] (len lam) end) as Hs.
  destruct (_construct_jacobi_trudi _ _ self) as [[M|e] self'];
    cbn in Hs; by subst self'.
Qed.

Lemma evaluate_partition_reads self lam mu :
  (evaluate_partition lam mu self).2 = self.
Proof. by rewrite evaluate_partition_run. Qed.

Lemma evaluate_partition_returns self lam mu r :
  (evaluate_partition lam mu self).1 = Ok r →
  evaluate_partition lam mu self = (Ok r, self).
Proof.
  intros Hr. pose proof (evaluate_partition_reads self lam mu) as Hs.
  destruct (evaluate_partition lam mu self) as [r' self']. cbn in *.
  by subst.
Qed.

(** A cell whose index is past the stored degree makes the entry raise. *)
Lemma entry_past_degree self lam mu (i j : nat) a b :
  lam !! i = Some a → mu !! j = Some b →
  len (_h_basis self) ≤ a - b - Z.of_nat i + Z.of_nat j →
  entry self lam mu (Z.of_nat i) (Z.of_nat j)
  = Raise (IndexError_basis (_degree self)
             (a - b - Z.of_nat i + Z.of_nat j)).
Proof.
  intros Ha Hb Hidx.
  rewrite (entry_value self lam mu _ _ a b) by (rewrite ?Nat2Z.id; done || lia).
  cbv zeta. pose proof (len_nonneg (_h_basis self)).
  rewrite bool_decide_eq_false_2 by lia.
  by rewrite bool_decide_eq_true_2 by lia.
Qed.

(** The only exception the construction raises is the degree error. *)
Lemma construct_raises self lam mu e :
  (_construct_jacobi_trudi lam mu self).1 = Raise e →
  ∃ idx, len (_h_basis self) ≤ idx
         ∧ e = IndexError_basis (_degree self) idx.
Proof.
  intros Hrun. pose proof (construct_spec self lam mu) as Hspec.
  destruct (_construct_jacobi_trudi lam mu self) as [[M|e'] self'];
    [done|].
  injection Hrun as ->. destruct Hspec as (_ & i & j & Hi & Hj & Hraise).
  pose proof (padded_length lam mu) as Hpad.
  apply entry_raise in Hraise as (a & b & _ & _ & Hbig & ->);
    [eauto|unfold len in *; lia..].
Qed.

(** The entry depends on [mu] through the one subscript it reads. *)
Lemma entry_ext self lam mu1 mu2 i j :
  getitem mu1 j = getitem mu2 j →
  entry self lam mu1 i j = entry self lam mu2 i j.
Proof.
  intros Hmu. unfold entry. destruct (getitem lam i); cbn; [|done].
  by rewrite Hmu.
Qed.

(** The construction depends on [mu] through the first [len(lam)] items
    of its padded form. *)
Lemma construct_ext self lam mu1 mu2 :
  (∀ j, 0 ≤ j < len lam →
        getitem (padded lam mu1) j = getitem (padded lam mu2) j) →
  _construct_jacobi_trudi lam mu1 self = _construct_jacobi_trudi lam mu2 self.
Proof.
  intros Hmu. unfold _construct_jacobi_trudi. cbv zeta.
  apply for_method_ext. intros i M s _.
  apply for_method_ext. intros j M' s' Hj%elem_of_range.
  rewrite !cell_body_run. by rewrite (entry_ext s' lam _ _ i j (Hmu j Hj)).
Qed.

(** [compare_topologies], run: the two evaluations in order, then the
    guard; the object comes back untouched. *)
Lemma compare_topologies_run self config_a config_b :
  compare_topologies config_a config_b self
  = (s_a ← (evaluate_partition config_a.1 (Some config_a.2) self).1;
     s_b ← (evaluate_partition config_b.1 (Some config_b.2) self).1;
     if np_isclose s_a lit_0_0 then Raise ValueError_singular
     else Ok (<["capacity_denominator" := s_a]>
              (<["capacity_numerator" := s_b]>
               (<["chi_ratio" := fdiv s_b s_a]> ∅))),
     self).
Proof.
  unfold compare_topologies, mbind, method_bind, result_bind.
  pose proof (evaluate_partition_reads self config_a.1 (Some config_a.2)) as Ha.
  destruct (evaluate_partition config_a.1 _ self) as [[s_a|e] self'];
    cbn in Ha; subst self'; [|done].
  pose proof (evaluate_partition_reads self config_b.1 (Some config_b.2)) as Hb.
  destruct (evaluate_partition config_b.1 _ self) as [[s_b|e] self'];
    cbn in Hb; subst self'; [|done].
  cbn. by destruct (np_isclose s_a lit_0_0).
Qed.

(** [compute_basis] reads nothing of the object but its primes. *)
Lemma compute_basis_primes_only self1 self2 max_degree :
  _primes self1 = _primes self2 →
  (compute_basis max_degree self1).1 = (compute_basis max_degree self2).1
  ∧ ((compute_basis max_degree self1).1 = Ok tt →
     (compute_basis max_degree self1).2 = (compute_basis max_degree self2).2).
Proof.
  intros Hprimes. unfold compute_basis. case_bool_decide; [done|].
  unfold mbind, method_bind, gets, lift, modify. rewrite Hprimes.
  by destruct (for_ (M:=result) _ _ _).
Qed.

End Operations.

(** ** The claims of the specification *)
Section Claims.
Context {F : Type} `{Numpy F}.
Implicit Types (self : SchurSieve F) (lam : list Z) (M : list (list F)).

(** C7.  [compute_basis] called with a degree that is zero or negative
    raises the ValueError of the degree check (InvalidDegreeError),
    whatever the state of the evaluator and whatever its primes; the
    evaluator is left unchanged. *)
Theorem compute_basis_invalid_degree self max_degree :
  max_degree ≤ 0 →
  compute_basis max_degree self = (Raise ValueError_degree, self).
Proof. apply compute_basis_refused. Qed.

(** C6.  On an evaluator whose basis is empty (Uninitialized),
    [evaluate_partition] raises the RuntimeError of the basis check
    (BasisUninitializedError) for every [lam] and every [mu], given or
    defaulted, and so does [compare_topologies] for every pair of
    configurations. *)
Theorem uninitialized_refuses self :
  Uninitialized self →
  (∀ lam mu, evaluate_partition lam mu self
             = (Raise RuntimeError_uninitialized, self))
  ∧ (∀ config_a config_b, compare_topologies config_a config_b self
                          = (Raise RuntimeError_uninitialized, self)).
Proof.
  intros Hempty.
  assert (∀ lam mu, evaluate_partition lam mu self
                    = (Raise RuntimeError_uninitialized, self)) as Heval.
  { intros lam mu. rewrite evaluate_partition_run.
    unfold Uninitialized in Hempty. rewrite Hempty. done. }
  split; [done|]. intros config_a config_b.
  unfold compare_topologies, mbind, method_bind. by rewrite Heval.
Qed.

(** C9.  Two calls of [evaluate_partition] with the same arguments, with
    nothing in between, return the same result (value or exception), and
    the evaluator after each call is the evaluator before it: primes,
    basis and degree are unchanged.  This holds in every state. *)
Theorem evaluate_partition_idempotent self lam mu :
  let first := evaluate_partition lam mu self in
  let second := evaluate_partition lam mu first.2 in
  first.1 = second.1
  ∧ first.2 = self ∧ second.2 = self
  ∧ _primes first.2 = _primes self
  ∧ _h_basis first.2 = _h_basis self
  ∧ _degree first.2 = _degree self.
Proof.
  cbv zeta. rewrite !evaluate_partition_reads. done.
Qed.

(** C8.  In a BasisReady state, with numpy's determinant of the empty
    matrix being 1.0, [evaluate_partition([], [])] builds the matrix with
    no rows and returns 1.0. *)
Theorem empty_shape self :
  BasisReady self →
  np_linalg_det [] = lit_1_0 →
  _construct_jacobi_trudi [] [] self = (Ok [], self)
  ∧ evaluate_partition [] (Some []) self = (Ok lit_1_0, self).
Proof.
  intros Hready Hdet.
  assert (_construct_jacobi_trudi [] [] self = (Ok [], self)) as Hrun by done.
  split; [done|].
  rewrite evaluate_partition_run.
  destruct (basis_ready_inv self Hready) as (HD & Hlen & _).
  rewrite bool_decide_eq_false_2 by lia.
  unfold mu_argument. rewrite Hrun. cbn. by rewrite Hdet.
Qed.

(** C3.  In a BasisReady state of degree D, if some cell [(i, j)] of the
    matrix for [lam] and [mu] (padded as the construction pads it) has
    index [lam[i] - mu[j] - i + j] greater than D, then the construction
    raises the IndexError of the degree check
    (InsufficientBasisDegreeError), reporting an index greater than D, and
    [evaluate_partition] raises the same; no matrix is returned. *)
Theorem degree_guard self lam mu (i j : nat) a b :
  BasisReady self →
  lam !! i = Some a →
  padded lam (mu_argument lam mu) !! j = Some b →
  (j < length lam)%nat →
  a - b - Z.of_nat i + Z.of_nat j > _degree self →
  ∃ idx, idx > _degree self
    ∧ _construct_jacobi_trudi lam (mu_argument lam mu) self
      = (Raise (IndexError_basis (_degree self) idx), self)
    ∧ evaluate_partition lam mu self
      = (Raise (IndexError_basis (_degree self) idx), self).
Proof.
  intros Hready Ha Hb Hj Hidx.
  destruct (basis_ready_inv self Hready) as (HD & Hlen & _).
  set (mu' := mu_argument lam mu) in *.
  pose proof (construct_spec self lam mu') as Hspec.
  pose proof (lookup_lt_Some _ _ _ Ha) as Hi.
  assert (∃ idx, idx > _degree self
            ∧ _construct_jacobi_trudi lam mu' self
              = (Raise (IndexError_basis (_degree self) idx), self))
    as (idx & Hgt & Hrun).
  { destruct (_construct_jacobi_trudi lam mu' self) as [[M|e] self'].
    - destruct Hspec as (_ & _ & Hfill).
      destruct (Hfill i j Hi Hj) as (v & Hv & _).
      rewrite (entry_past_degree self lam _ i j a b) in Hv by (done || lia).
      done.
    - destruct Hspec as (-> & i' & j' & Hi' & Hj' & Hraise).
      pose proof (padded_length lam mu') as Hpad.
      apply entry_raise in Hraise as (a' & b' & _ & _ & Hbig & ->);
        [|unfold len in *; lia..].
      eexists. split; [|reflexivity]. lia. }
  exists idx. split; [done|]. split; [done|].
  rewrite evaluate_partition_run, bool_decide_eq_false_2 by lia.
  fold mu'. by rewrite Hrun.
Qed.

(** C4.  When the construction returns a matrix, every cell [(i, j)]
    whose index [lam[i] - mu[j] - i + j] (with [mu] padded) is negative
    holds 0.0, whatever the basis holds; and in a BasisReady state of
    degree D every cell whose index lies in 0..D holds the basis entry at
    that index. *)
Theorem zero_index_convention self lam mu M (i j : nat) a b :
  (_construct_jacobi_trudi lam mu self).1 = Ok M →
  lam !! i = Some a →
  padded lam mu !! j = Some b →
  (j < length lam)%nat →
  let idx := a - b - Z.of_nat i + Z.of_nat j in
  (idx < 0 → cell_at M i j = Some lit_0_0)
  ∧ (BasisReady self → 0 ≤ idx ≤ _degree self →
     ∃ v, _h_basis self !! Z.to_nat idx = Some v ∧ cell_at M i j = Some v).
Proof.
  intros Hrun Ha Hb Hj idx.
  pose proof (construct_spec self lam mu) as Hspec.
  pose proof (lookup_lt_Some _ _ _ Ha) as Hi.
  destruct (_construct_jacobi_trudi lam mu self) as [[M'|e] self'];
    [|done].
  injection Hrun as ->. destruct Hspec as (_ & _ & Hfill).
  destruct (Hfill i j Hi Hj) as (v & Hv & Hcell).
  rewrite (entry_value self lam _ _ _ a b) in Hv
    by (rewrite ?Nat2Z.id; done || lia).
  cbv zeta in Hv. fold idx in Hv. split.
  - intros Hneg. rewrite bool_decide_eq_true_2 in Hv by done. congruence.
  - intros Hready Hrange.
    destruct (basis_ready_inv self Hready) as (HD & Hlen & _).
    rewrite bool_decide_eq_false_2 in Hv by lia.
    rewrite bool_decide_eq_false_2 in Hv by lia.
    destruct (_h_basis self !! Z.to_nat idx) as [w|]; [|done].
    exists w. split; [done|]. congruence.
Qed.

(** C10.  In a BasisReady state, when [mu] is longer than [lam] the
    padding leaves [mu] as it is, the call does not raise Python's
    out-of-range IndexError, and it behaves exactly as the call with [mu]
    cut to its first [len(lam)] items: only those items are read. *)
Theorem longer_mu_is_truncated self lam mu :
  BasisReady self →
  len lam < len mu →
  padded lam mu = mu
  ∧ (evaluate_partition lam (Some mu) self).1 ≠ Raise IndexError_out_of_range
  ∧ evaluate_partition lam (Some mu) self
    = evaluate_partition lam (Some (take (length lam) mu)) self.
Proof.
  intros Hready Hlong. split; [by apply padded_longer|]. split.
  - rewrite evaluate_partition_run. cbn. case_bool_decide; [done|].
    destruct (_construct_jacobi_trudi lam mu self).1 as [M|e] eqn:Hrun;
      [done|].
    apply construct_raises in Hrun as (idx & _ & ->). done.
  - rewrite !evaluate_partition_run. unfold mu_argument.
    rewrite (construct_ext self lam mu (take (length lam) mu)); [done|].
    intros j Hj. rewrite padded_longer by done.
    assert (length (take (length lam) mu) = length lam) as Htake
      by (rewrite length_take; unfold len in *; lia).
    assert (padded lam (take (length lam) mu) = take (length lam) mu) as ->.
    { unfold padded. cbv zeta. rewrite bool_decide_eq_false_2; [done|].
      unfold len. rewrite Htake. lia. }
    destruct (getitem_nonneg mu j) as (x & Hx & ->); [lia|].
    symmetry. apply getitem_lookup; [lia|].
    rewrite lookup_take_lt; [done|]. unfold len in *. lia.
Qed.

(** C2.  When both configurations evaluate, to [s_a] for the reference
    and [s_b] for the target, [compare_topologies] raises the ValueError
    of the singularity check (SingularTopologyError) if [np.isclose(s_a,
    0.0)] holds, returning no value at all then, and otherwise returns the
    dictionary with [s_a], [s_b] and [s_b / s_a] under its three keys.
    The evaluator is unchanged either way. *)
Theorem compare_topologies_guard self config_a config_b s_a s_b :
  BasisReady self →
  (evaluate_partition config_a.1 (Some config_a.2) self).1 = Ok s_a →
  (evaluate_partition config_b.1 (Some config_b.2) self).1 = Ok s_b →
  compare_topologies config_a config_b self
  = (if np_isclose s_a lit_0_0 then Raise ValueError_singular
     else Ok (<["capacity_denominator" := s_a]>
              (<["capacity_numerator" := s_b]>
               (<["chi_ratio" := fdiv s_b s_a]> ∅))),
     self).
Proof.
  intros _ Ha%evaluate_partition_returns Hb%evaluate_partition_returns.
  unfold compare_topologies, mbind, method_bind. rewrite Ha, Hb.
  by destruct (np_isclose s_a lit_0_0).
Qed.

(** What the generator and the builtin [sum] of one iteration add up to
    is the right-hand side written out on its own. *)
Lemma newton_rhs_sum (primes h : list F) n :
  0 ≤ n → newton_rhs primes h n = newton_sum primes h n.
Proof.
  intros Hn. unfold newton_rhs, newton_sum, py_sum, range.
  replace (n + 1 - 1) with (Z.of_nat (Z.to_nat n)) by lia.
  induction (Z.to_nat n) as [|m IH]; [done|].
  rewrite seqZ_S, fmap_app, foldl_app, IH. cbn.
  by replace (1 + Z.of_nat m) with (Z.of_nat (S m)) by lia.
Qed.


End Claims.

(** ** Life cycle and totality *)
Section Lifecycle.
Context {F : Type} `{Numpy F}.
Implicit Types (self : SchurSieve F) (lam : list Z) (M : list (list F)).

Lemma ready_not_uninitialized self : BasisReady self → ¬ Uninitialized self.
Proof.
  intros (HD & Hlen & _)%basis_ready_inv Hempty.
  unfold Uninitialized in Hempty. rewrite Hempty in Hlen.
  unfold len in Hlen. cbn in Hlen. lia.
Qed.

Lemma after_cases c self :
  after c self = self
  ∨ ∃ max_degree, c = call_compute_basis max_degree ∧ 1 ≤ max_degree
      ∧ compute_basis max_degree self = (Ok tt, after c self)
      ∧ _primes (after c self) = _primes self.
Proof.
  destruct c as [D|lam mu|config_a config_b]; cbn.
  - destruct (decide (D ≤ 0)) as [Hle|Hgt].
    + left. by rewrite compute_basis_refused.
    + right. exists D. split; [done|]. split; [lia|].
      destruct (compute_basis_spec self D) as (h & -> & _); [lia|]. done.
  - left. apply evaluate_partition_reads.
  - left. by rewrite compare_topologies_run.
Qed.

(** The evaluator's state machine.  An evaluator constructed over [data]
    and then used through any sequence of calls keeps [data] as its
    primes and is in exactly one of two states: Uninitialized (empty
    basis, degree 0) or BasisReady.  Once BasisReady it stays BasisReady;
    it leaves Uninitialized only by a [compute_basis] that returns. *)
Theorem evaluator_states data self :
  reachable data self →
  _primes self = data
  ∧ ((Uninitialized self ∧ ¬ BasisReady self ∧ _degree self = 0)
     ∨ (BasisReady self ∧ ¬ Uninitialized self))
  ∧ ∀ c, (BasisReady self → BasisReady (after c self))
         ∧ (Uninitialized self → BasisReady (after c self) →
            ∃ max_degree, c = call_compute_basis max_degree
                          ∧ 1 ≤ max_degree).
Proof.
  intros Hreach.
  assert (∀ c s, BasisReady s → BasisReady (after c s)) as Hkeep.
  { intros c s Hs. destruct (after_cases c s) as [->|(D & _ & _ & Hrun & _)];
      [done|]. by exists s, D. }
  assert (∀ c s, Uninitialized s → BasisReady (after c s) →
            ∃ D, c = call_compute_basis D ∧ 1 ≤ D) as Hleave.
  { intros c s Hs Hafter.
    destruct (after_cases c s) as [Heq|(D & -> & HD & _)]; [|eauto].
    rewrite Heq in Hafter. by apply ready_not_uninitialized in Hafter. }
  split; [|split; [|by eauto]].
  - induction Hreach as [|c s _ IH]; [done|].
    by destruct (after_cases c s) as [->|(D & _ & _ & _ & ->)].
  - induction Hreach as [|c s _ IH].
    + left. split; [done|]. split; [|done].
      by intros Hr%ready_not_uninitialized.
    + destruct (after_cases c s) as [->|(D & _ & _ & Hrun & _)]; [done|].
      right. assert (BasisReady (after c s)) as Hr by (by exists s, D).
      split; [done|]. by apply ready_not_uninitialized.
Qed.

(** Recomputation.  A call of [compute_basis] with a positive degree
    returns in any state, keeps the primes, and leaves the basis and
    degree that the same call leaves on a newly constructed evaluator over
    the same primes: nothing of the previous basis survives. *)
Theorem compute_basis_replaces self max_degree :
  1 ≤ max_degree →
  compute_basis max_degree self
  = (Ok tt, (compute_basis max_degree (__init__ (_primes self))).2)
  ∧ _primes (compute_basis max_degree self).2 = _primes self
  ∧ _degree (compute_basis max_degree self).2 = max_degree
  ∧ BasisReady (compute_basis max_degree self).2.
Proof.
  intros HD.
  destruct (compute_basis_primes_only self (__init__ (_primes self))
              max_degree eq_refl) as [_ Hstate].
  pose proof (basis_ready_compute self max_degree HD) as Hready.
  destruct (compute_basis_spec self max_degree HD) as (h & Hrun & _).
  rewrite Hrun in *. cbn in *. rewrite <- Hstate by done. done.
Qed.

(** Totality of evaluation.  In a BasisReady state of degree D, if every
    cell of the matrix for [lam] and [mu] has an index of at most D, the
    construction returns a square matrix of side [len(lam)] and
    [evaluate_partition] returns numpy's determinant of that matrix. *)
Theorem evaluate_partition_returns_det self lam mu :
  BasisReady self →
  (∀ (i j : nat) a b,
     lam !! i = Some a → padded lam (mu_argument lam mu) !! j = Some b →
     (j < length lam)%nat →
     a - b - Z.of_nat i + Z.of_nat j ≤ _degree self) →
  ∃ M, _construct_jacobi_trudi lam (mu_argument lam mu) self = (Ok M, self)
       ∧ square (length lam) M
       ∧ evaluate_partition lam mu self = (Ok (np_linalg_det M), self).
Proof.
  intros Hready Hsmall.
  destruct (basis_ready_inv self Hready) as (HD & Hlen & _).
  set (mu' := mu_argument lam mu) in *.
  pose proof (construct_spec self lam mu') as Hspec.
  rewrite evaluate_partition_run, bool_decide_eq_false_2 by lia. fold mu'.
  destruct (_construct_jacobi_trudi lam mu' self) as [[M|e] self'].
  - destruct Hspec as (-> & Hsq & _). by exists M.
  - destruct Hspec as (_ & i & j & Hi & Hj & Hraise).
    pose proof (padded_length lam mu') as Hpad.
    apply entry_raise in Hraise as (a & b & Ha & Hb & Hbig & _);
      [|unfold len in *; lia..].
    rewrite Nat2Z.id in Ha, Hb. specialize (Hsmall i j a b Ha Hb Hj). lia.
Qed.

(** Propagation.  [compare_topologies] surfaces unchanged whatever
    [evaluate_partition] raises: the exception of the reference
    configuration if it raises, otherwise the exception of the target
    configuration if that raises, before the singularity check is made. *)
Theorem compare_topologies_propagates self config_a config_b e :
  ((evaluate_partition config_a.1 (Some config_a.2) self).1 = Raise e →
   compare_topologies config_a config_b self = (Raise e, self))
  ∧ (∀ s_a,
       (evaluate_partition config_a.1 (Some config_a.2) self).1 = Ok s_a →
       (evaluate_partition config_b.1 (Some config_b.2) self).1 = Raise e →
       compare_topologies config_a config_b self = (Raise e, self)).
Proof.
  split.
  - intros Ha. by rewrite compare_topologies_run, Ha.
  - intros s_a Ha Hb. by rewrite compare_topologies_run, Ha, Hb.
Qed.

End Lifecycle.

(** ** Shapes: what the evaluation depends on *)
Section Shapes.
Context {F : Type} `{Numpy F}.
Implicit Types (self : SchurSieve F) (lam mu : list Z) (M : list (list F)).

(** The construction depends on [lam] and [mu] only through the entries
    of the cells. *)
Lemma construct_entry_ext self lam1 mu1 lam2 mu2 :
  length lam1 = length lam2 →
  (∀ s i j, 0 ≤ i < len lam1 → 0 ≤ j < len lam1 →
     entry s lam1 (padded lam1 mu1) i j
     = entry s lam2 (padded lam2 mu2) i j) →
  _construct_jacobi_trudi lam1 mu1 self
  = _construct_jacobi_trudi lam2 mu2 self.
Proof.
  intros Hlen Hentry. unfold _construct_jacobi_trudi. cbv zeta.
  assert (len lam2 = len lam1) as -> by (unfold len; lia).
  apply for_method_ext. intros i M s Hi%elem_of_range.
  apply for_method_ext. intros j M' s' Hj%elem_of_range.
  rewrite !cell_body_run. by rewrite Hentry.
Qed.

(** What the padded [mu] holds at a column of the matrix: the item of
    [mu] there, or 0 past its end. *)
Lemma padded_lookup lam mu (j : nat) :
  (j < length lam)%nat →
  padded lam mu !! j = Some (default 0 (mu !! j)).
Proof.
  intros Hj. destruct (decide (len mu ≤ len lam)) as [Hle|Hgt].
  - rewrite padded_shorter by done.
    destruct (decide (j < length mu)%nat) as [Hin|Hout].
    + rewrite lookup_app_l by done.
      by destruct (lookup_lt_is_Some_2 mu j Hin) as [x ->].
    + rewrite lookup_app_r by lia.
      rewrite lookup_replicate_2 by (unfold len in *; lia).
      by rewrite (lookup_ge_None_2 mu j) by lia.
  - rewrite padded_longer by lia.
    destruct (lookup_lt_is_Some_2 mu j) as [x ->]; [|done].
    unfold len in *. lia.
Qed.

Lemma getitem_padded lam mu j :
  0 ≤ j < len lam →
  getitem (padded lam mu) j = Ok (default 0 (mu !! Z.to_nat j)).
Proof.
  intros Hj. apply getitem_lookup; [lia|].
  apply padded_lookup. unfold len in Hj. lia.
Qed.

(** Normal form of [mu].  In every state, [evaluate_partition] reads of
    [mu] (the list given, or the zeros of the default) exactly its first
    [len(lam)] items, an item past the end of [mu] counting as 0: the call
    behaves as the call on [mu] extended by zeros and cut to the length of
    [lam]. *)
Theorem mu_normal_form self lam (mu : option (list Z)) :
  evaluate_partition lam mu self
  = evaluate_partition lam
      (Some (take (length lam)
               (mu_argument lam mu ++ replicate (length lam) 0))) self.
Proof.
  rewrite !evaluate_partition_run. set (m := mu_argument lam mu).
  cbn [mu_argument].
  rewrite (construct_ext self lam m
             (take (length lam) (m ++ replicate (length lam) 0))); [done|].
  intros j Hj. rewrite !getitem_padded by done. f_equal.
  assert (Z.to_nat j < length lam)%nat as Hj' by (unfold len in Hj; lia).
  rewrite lookup_take_lt by done.
  destruct (decide (Z.to_nat j < length m)%nat) as [Hin|Hout].
  - by rewrite lookup_app_l.
  - rewrite lookup_app_r by lia. rewrite lookup_replicate_2 by lia.
    rewrite (lookup_ge_None_2 m (Z.to_nat j)) by lia. done.
Qed.

(** Shift invariance.  When [mu] is as long as [lam], adding one and the
    same integer to every item of both changes nothing: every cell keeps
    its index [lam[i] - mu[j] - i + j], so the call returns or raises the
    same. *)
Theorem shift_invariance self lam mu c :
  length mu = length lam →
  evaluate_partition ((λ a, a + c) <$> lam) (Some ((λ b, b + c) <$> mu)) self
  = evaluate_partition lam (Some mu) self.
Proof.
  intros Hlen. rewrite !evaluate_partition_run. cbn [mu_argument].
  rewrite (construct_entry_ext self _ ((λ b, b + c) <$> mu) lam mu);
    [done|by rewrite length_fmap|].
  intros s i j Hi Hj. unfold len in Hi, Hj. rewrite length_fmap in Hi, Hj.
  destruct (lookup_lt_is_Some_2 lam (Z.to_nat i)) as [a Ha]; [lia|].
  destruct (lookup_lt_is_Some_2 mu (Z.to_nat j)) as [b Hb]; [lia|].
  assert (∀ l : list Z, length l = length mu →
            padded ((λ a, a + c) <$> lam) l = l
            ∧ padded lam l = l) as Hpad.
  { intros l Hl. unfold padded. cbv zeta. unfold len.
    rewrite length_fmap, !bool_decide_eq_false_2 by lia. done. }
  destruct (Hpad mu eq_refl) as [_ ->].
  destruct (Hpad ((λ b, b + c) <$> mu)) as [-> _]; [by rewrite length_fmap|].
  rewrite (entry_value s _ _ i j (a + c) (b + c));
    [|lia|lia|by rewrite list_lookup_fmap, Ha|by rewrite list_lookup_fmap, Hb].
  rewrite (entry_value s lam mu i j a b) by (done || lia).
  cbv zeta. by replace (a + c - (b + c) - i + j) with (a - b - i + j) by lia.
Qed.

End Shapes.

(** ** Degrees: what a larger basis changes, and what it does not *)
Section Degrees.
Context {F : Type} `{Numpy F}.
Implicit Types (self : SchurSieve F) (lam mu : list Z) (M : list (list F)).
Implicit Types (h primes : list F).

(** The right-hand side of the identity at [n] reads the basis below [n]
    only. *)
Lemma newton_rhs_agree primes h h' n :
  (∀ m, 0 ≤ m < n → h_ h m = h_ h' m) →
  newton_rhs primes h n = newton_rhs primes h' n.
Proof.
  intros Hagree. unfold newton_rhs. f_equal. apply list_fmap_ext.
  intros i k Hk%list_elem_of_lookup_2%elem_of_range.
  rewrite Hagree; [done|lia].
Qed.

(** Two lists that satisfy the recurrence of [compute_basis] over the
    same primes agree wherever both are defined by it. *)
Lemma recurrence_unique primes h h' D :
  h !! 0%nat = Some lit_1_0 → h' !! 0%nat = Some lit_1_0 →
  (∀ n, 1 ≤ n ≤ D →
     h !! Z.to_nat n = Some (fdiv (newton_rhs primes h n) (of_int n))) →
  (∀ n, 1 ≤ n ≤ D →
     h' !! Z.to_nat n = Some (fdiv (newton_rhs primes h' n) (of_int n))) →
  ∀ n : nat, Z.of_nat n ≤ D → h !! n = h' !! n.
Proof.
  intros Hh0 Hh0' Hrec Hrec' n.
  induction n as [n IH] using lt_wf_ind. intros Hn.
  destruct n as [|n]; [congruence|].
  specialize (Hrec (Z.of_nat (S n)) ltac:(lia)).
  specialize (Hrec' (Z.of_nat (S n)) ltac:(lia)).
  rewrite Nat2Z.id in Hrec, Hrec'. rewrite Hrec, Hrec'. do 2 f_equal.
  apply newton_rhs_agree. intros m Hm. unfold h_.
  rewrite !bool_decide_eq_true_2 by lia.
  by rewrite (IH (Z.to_nat m)) by lia.
Qed.

(** Raising the degree extends the basis: over the same primes, the basis
    computed for a degree [D] is the first [D + 1] entries of the basis
    computed for any larger degree. *)
Theorem basis_prefix_stable self max_degree max_degree' :
  1 ≤ max_degree ≤ max_degree' →
  _h_basis (compute_basis max_degree self).2
  = take (Z.to_nat (max_degree + 1))
         (_h_basis (compute_basis max_degree' self).2).
Proof.
  intros HD.
  destruct (compute_basis_spec self max_degree)
    as (h & -> & Hlen & Hh0 & Hrec); [lia|].
  destruct (compute_basis_spec self max_degree')
    as (h' & -> & Hlen' & Hh0' & Hrec'); [lia|].
  cbn. apply list_eq. intros n.
  destruct (decide (Z.of_nat n ≤ max_degree)) as [Hn|Hn].
  - rewrite lookup_take_lt by lia.
    apply (recurrence_unique (_primes self) h h' max_degree); try done.
    intros m Hm. apply Hrec'. lia.
  - rewrite lookup_take_ge by lia. apply lookup_ge_None_2.
    unfold len in Hlen. lia.
Qed.

(** An entry that is computed over a basis is computed alike over any
    basis that extends it. *)
Lemma entry_extends self self' lam mu i j v :
  (∀ n x, _h_basis self !! n = Some x → _h_basis self' !! n = Some x) →
  entry self lam mu i j = Ok v → entry self' lam mu i j = Ok v.
Proof.
  intros Hext. unfold entry.
  destruct (getitem lam i) as [lam_i|]; [|done].
  destruct (getitem mu j) as [mu_j|]; [|done]. cbn.
  case_bool_decide as Hneg; [done|].
  case_bool_decide as Hbig; [done|]. intros Hv.
  destruct (getitem_nonneg (_h_basis self) (lam_i - mu_j - i + j))
    as (x & Hx & Hget); [lia|].
  rewrite Hget in Hv. injection Hv as ->.
  apply Hext in Hx. pose proof (lookup_lt_Some _ _ _ Hx) as Hlt.
  rewrite bool_decide_eq_false_2 by (unfold len; lia).
  apply getitem_lookup; [lia|done].
Qed.

(** Two square matrices of one side with the same cells are equal. *)
Lemma matrix_ext k M M' :
  square k M → square k M' →
  (∀ i j, (i < k)%nat → (j < k)%nat → cell_at M i j = cell_at M' i j) →
  M = M'.
Proof.
  intros [Hlen Hrows] [Hlen' Hrows'] Hcells. apply list_eq. intros i.
  destruct (decide (i < k)%nat) as [Hi|Hi].
  - destruct (lookup_lt_is_Some_2 M i) as [row Hrow]; [lia|].
    destruct (lookup_lt_is_Some_2 M' i) as [row' Hrow']; [lia|].
    rewrite Hrow, Hrow'. f_equal.
    assert (length row = k) as Hr
      by (eapply (proj1 (Forall_lookup _ _) Hrows); eauto).
    assert (length row' = k) as Hr'
      by (eapply (proj1 (Forall_lookup _ _) Hrows'); eauto).
    apply list_eq. intros j.
    destruct (decide (j < k)%nat) as [Hj|Hj].
    + specialize (Hcells i j Hi Hj). unfold cell_at in Hcells.
      by rewrite Hrow, Hrow' in Hcells.
    + by rewrite !lookup_ge_None_2 by lia.
  - by rewrite !lookup_ge_None_2 by lia.
Qed.

(** An evaluation that returns over one basis returns the same over any
    basis that extends it. *)
Lemma evaluate_extends self self' lam (mu : option (list Z)) r :
  (∀ n x, _h_basis self !! n = Some x → _h_basis self' !! n = Some x) →
  (evaluate_partition lam mu self).1 = Ok r →
  (evaluate_partition lam mu self').1 = Ok r.
Proof.
  intros Hext. rewrite !evaluate_partition_run. cbn [fst].
  case_bool_decide as Hempty; [done|].
  assert (len (_h_basis self') ≠ 0) as Hne.
  { destruct (_h_basis self) as [|x h] eqn:Hh; [done|].
    specialize (Hext 0%nat x eq_refl).
    apply lookup_lt_Some in Hext. unfold len. lia. }
  rewrite bool_decide_eq_false_2 by done.
  set (m := mu_argument lam mu).
  pose proof (construct_spec self lam m) as Hspec.
  pose proof (construct_spec self' lam m) as Hspec'.
  destruct (_construct_jacobi_trudi lam m self) as [[M|e] s]; [|done].
  destruct Hspec as (_ & Hsq & Hfill). cbn. intros [= <-].
  destruct (_construct_jacobi_trudi lam m self') as [[M'|e] s'].
  - destruct Hspec' as (_ & Hsq' & Hfill'). cbn. do 2 f_equal.
    apply (matrix_ext (length lam)); [done..|].
    intros i j Hi Hj.
    destruct (Hfill i j Hi Hj) as (v & Hv & ->).
    destruct (Hfill' i j Hi Hj) as (v' & Hv' & ->).
    apply (entry_extends self self') in Hv; [|done]. congruence.
  - destruct Hspec' as (_ & i & j & Hi & Hj & Hraise).
    destruct (Hfill i j Hi Hj) as (v & Hv & _).
    apply (entry_extends self self') in Hv; [|done]. congruence.
Qed.

Lemma basis_extends self max_degree max_degree' :
  1 ≤ max_degree ≤ max_degree' →
  ∀ n x, _h_basis (compute_basis max_degree self).2 !! n = Some x →
         _h_basis (compute_basis max_degree' self).2 !! n = Some x.
Proof.
  intros HD n x.
  destruct (compute_basis_spec self max_degree)
    as (h & -> & Hlen & Hh0 & Hrec); [lia|].
  destruct (compute_basis_spec self max_degree')
    as (h' & -> & Hlen' & Hh0' & Hrec'); [lia|].
  cbn. intros Hx. pose proof (lookup_lt_Some _ _ _ Hx) as Hn.
  rewrite <- Hx. symmetry.
  apply (recurrence_unique (_primes self) h h' max_degree); try done.
  - intros m Hm. apply Hrec'. lia.
  - unfold len in Hlen. lia.
Qed.

(** Recomputing with a larger degree keeps every capacity already
    obtained: if [evaluate_partition] returned [r] after
    [compute_basis(D)], it returns the same [r] after [compute_basis(D')]
    for any [D' >= D] on the same evaluator. *)
Theorem evaluation_survives_recomputation self max_degree max_degree'
    lam (mu : option (list Z)) r :
  1 ≤ max_degree ≤ max_degree' →
  (evaluate_partition lam mu (compute_basis max_degree self).2).1 = Ok r →
  evaluate_partition lam mu (compute_basis max_degree' self).2
  = (Ok r, (compute_basis max_degree' self).2).
Proof.
  intros HD Hr. apply evaluate_partition_returns.
  eapply evaluate_extends; [|exact Hr]. by apply basis_extends.
Qed.

(** The construction returns when every cell has its index inside the
    basis. *)
Lemma construct_returns self lam mu :
  (∀ (i j : nat) a b,
     lam !! i = Some a → padded lam mu !! j = Some b →
     (j < length lam)%nat →
     a - b - Z.of_nat i + Z.of_nat j < len (_h_basis self)) →
  ∃ M, _construct_jacobi_trudi lam mu self = (Ok M, self)
       ∧ square (length lam) M.
Proof.
  intros Hsmall. pose proof (construct_spec self lam mu) as Hspec.
  destruct (_construct_jacobi_trudi lam mu self) as [[M|e] self'].
  - destruct Hspec as (-> & Hsq & _). by exists M.
  - destruct Hspec as (_ & i & j & Hi & Hj & Hraise).
    pose proof (padded_length lam mu) as Hpad.
    apply entry_raise in Hraise as (a & b & Ha & Hb & Hbig & _);
      [|unfold len in *; lia..].
    rewrite Nat2Z.id in Ha, Hb. specialize (Hsmall i j a b Ha Hb Hj). lia.
Qed.

(** A degree that is enough, read off the shape alone. *)
Lemma evaluate_within_degree self lam (mu : option (list Z)) L :
  BasisReady self →
  Forall (λ a, a ≤ L) lam →
  Forall (λ b, 0 ≤ b) (mu_argument lam mu) →
  L + len lam - 1 ≤ _degree self →
  ∃ M, square (length lam) M
       ∧ evaluate_partition lam mu self = (Ok (np_linalg_det M), self).
Proof.
  intros Hready Hlam Hmu HL.
  destruct (basis_ready_inv self Hready) as (HD & Hlen & _).
  destruct (construct_returns self lam (mu_argument lam mu))
    as (M & Hrun & Hsq).
  { intros i j a b Ha Hb Hj.
    pose proof (proj1 (Forall_lookup _ _) Hlam i a Ha) as Ha'. cbn in Ha'.
    rewrite padded_lookup in Hb by done. injection Hb as <-.
    assert (0 ≤ default 0 (mu_argument lam mu !! j)) as Hb'.
    { destruct (mu_argument lam mu !! j) as [b|] eqn:Hb; [|done].
      exact (proj1 (Forall_lookup _ _) Hmu j b Hb). }
    unfold len in *. lia. }
  exists M. split; [done|].
  rewrite evaluate_partition_run, bool_decide_eq_false_2 by lia.
  by rewrite Hrun.
Qed.

(** Sufficient degree.  In a BasisReady state, if no item of [lam]
    exceeds [L], no item of [mu] is negative, and the stored degree is at
    least [L + len(lam) - 1], then [evaluate_partition] returns: it is the
    determinant of a square matrix of side [len(lam)], and no degree error
    is raised. *)
Theorem sufficient_degree self lam (mu : option (list Z)) L :
  BasisReady self →
  Forall (λ a, a ≤ L) lam →
  Forall (λ b, 0 ≤ b) (mu_argument lam mu) →
  L + len lam - 1 ≤ _degree self →
  ∃ M, square (length lam) M
       ∧ evaluate_partition lam mu self = (Ok (np_linalg_det M), self).
Proof. apply evaluate_within_degree. Qed.

End Degrees.

(** ** Which cell the degree error reports *)
Section ErrorReport.
Context {F : Type} `{Numpy F}.
Implicit Types (self : SchurSieve F) (lam mu : list Z) (M : list (list F)).

(** The items a [range] has passed when it reaches [x] are those below
    [x]. *)
Lemma range_passed a b pre x post y :
  range a b = pre ++ x :: post → a ≤ y < x → y ∈ pre.
Proof.
  intros Hsplit Hy. pose proof (range_split _ _ _ _ _ Hsplit) as [Hx Hxb].
  assert (range a b !! Z.to_nat (y - a) = Some y) as Hlook.
  { unfold range. rewrite lookup_seqZ_lt by lia. f_equal. lia. }
  rewrite Hsplit, lookup_app_l in Hlook by (unfold len in Hx; lia).
  by eapply list_elem_of_lookup_2.
Qed.

(** When the construction raises, it raises what the first cell in
    row-major order whose entry raises raised: every cell before it was
    computed. *)
Lemma construct_first_raise self lam mu :
  match _construct_jacobi_trudi lam mu self with
  | (Ok _, _) => True
  | (Raise e, _) =>
      ∃ i j, (i < length lam)%nat ∧ (j < length lam)%nat
        ∧ entry self lam (padded lam mu) (Z.of_nat i) (Z.of_nat j) = Raise e
        ∧ ∀ i' j', (i' < length lam)%nat → (j' < length lam)%nat →
            before i' j' i j →
            ∃ v, entry self lam (padded lam mu) (Z.of_nat i') (Z.of_nat j')
                 = Ok v
  end.
Proof.
  unfold _construct_jacobi_trudi. cbv zeta.
  set (mu' := padded lam mu). set (k := length lam).
  pose (Q := λ e : exn, ∃ i j, (i < k)%nat ∧ (j < k)%nat
       ∧ entry self lam mu' (Z.of_nat i) (Z.of_nat j) = Raise e
       ∧ ∀ i' j', (i' < k)%nat → (j' < k)%nat → before i' j' i j →
           ∃ v, entry self lam mu' (Z.of_nat i') (Z.of_nat j') = Ok v).
  pose (P := λ (pre : list Z) M, square k M
       ∧ ∀ i j, Z.of_nat i ∈ pre → (j < k)%nat → filled self lam mu' M i j).
  pose proof (for_method_inv (S:=SchurSieve F) P Q (range 0 (len lam)))
    as Houter.
  match goal with |- context [@for_ _ _ _ _ _ ?body ?a] =>
    specialize (Houter body a self) end.
  lapply Houter; clear Houter.
  - intros Houter. lapply Houter; clear Houter.
    + destruct (for_ (M:=method (SchurSieve F)) _ _ _ self)
        as [[M|e] self']; [done|]. by intros [_ HQ].
    + intros pre x post M Hsplit [Hsq Hfill].
      pose proof (range_split _ _ _ _ _ Hsplit) as [_ Hx].
      pose (P' := λ (pre' : list Z) M', square k M'
         ∧ (∀ i j, filled self lam mu' M i j → filled self lam mu' M' i j)
         ∧ ∀ j, Z.of_nat j ∈ pre' → filled self lam mu' M' (Z.to_nat x) j).
      pose proof (for_method_inv (S:=SchurSieve F) P' Q (range 0 (len lam)))
        as Hinner.
      match goal with |- context [@for_ _ _ _ _ _ ?body ?a] =>
        specialize (Hinner body a self) end.
      lapply Hinner; clear Hinner.
      * intros Hinner. lapply Hinner; clear Hinner.
        -- destruct (for_ (M:=method (SchurSieve F)) _ _ _ self)
             as [[M'|e] self']; [|done].
           intros (-> & Hsq' & Hkeep & Hrow). split; [done|]. split; [done|].
           intros i j [Hi|Hi%list_elem_of_singleton]%elem_of_app Hj.
           ++ by apply Hkeep, Hfill.
           ++ rewrite <- Hi, Nat2Z.id in Hrow. apply Hrow, elem_of_range.
              unfold len. lia.
        -- intros pre' y post' M' Hsplit' (Hsq' & Hkeep & Hrow).
           pose proof (range_split _ _ _ _ _ Hsplit') as [_ Hy].
           rewrite cell_body_run. unfold mbind, result_bind.
           destruct (entry self lam mu' x y) as [v|e] eqn:Hentry.
           ++ destruct (setitem2_square k M' (Z.to_nat x) (Z.to_nat y) v)
                as (M'' & Hset & Hsq'' & Hcell & Hother);
                [done|unfold len in *; lia..|].
              rewrite !Z2Nat.id in Hset by lia. rewrite Hset.
              split; [done|]. split; [done|].
              assert (filled self lam mu' M'' (Z.to_nat x) (Z.to_nat y))
                as Hnew.
              { exists v. by rewrite !Z2Nat.id by lia. }
              assert (∀ i j, filled self lam mu' M' i j →
                             filled self lam mu' M'' i j) as Hkeep'.
              { intros i j Hij.
                destruct (decide ((i, j) = (Z.to_nat x, Z.to_nat y)))
                  as [[= -> ->]|Hne]; [done|].
                destruct Hij as (w & Hw & Hc). exists w.
                by rewrite Hother. }
              split; [by auto|].
              intros j [Hj|Hj%list_elem_of_singleton]%elem_of_app.
              ** by apply Hkeep', Hrow.
              ** by rewrite <- Hj, Nat2Z.id in Hnew.
           ++ split; [done|]. exists (Z.to_nat x), (Z.to_nat y).
              rewrite !Z2Nat.id by lia. unfold len in *.
              split; [lia|]. split; [lia|]. split; [done|].
              intros i' j' Hi' Hj' [Hlt|[-> Hlt]].
              ** destruct (Hfill i' j') as (w & Hw & _); [|done|by exists w].
                 apply (range_passed _ _ _ _ _ _ Hsplit). lia.
              ** destruct (Hrow j') as (w & Hw & _); [|].
                 { apply (range_passed _ _ _ _ _ _ Hsplit'). lia. }
                 by exists w.
      * split; [done|]. split; [done|]. by intros j ?%elem_of_nil.
  - split; [|by intros i j ?%elem_of_nil].
    unfold k. rewrite <- (Nat2Z.id (length lam)). apply np_zeros_square.
    apply len_nonneg.
Qed.

(** The degree error names the first offending cell.  In any state, if
    cell [(i, j)] has its index at or past the end of the basis and every
    cell before it in row-major order has its index inside the basis (or
    negative), then the construction raises the IndexError carrying the
    stored degree and the index of that very cell, and so does
    [evaluate_partition] when the basis is not empty. *)
Theorem first_offending_cell self lam mu (i j : nat) a b :
  lam !! i = Some a →
  padded lam mu !! j = Some b →
  (j < length lam)%nat →
  len (_h_basis self) ≤ a - b - Z.of_nat i + Z.of_nat j →
  (∀ (i' j' : nat) a' b',
     lam !! i' = Some a' → padded lam mu !! j' = Some b' →
     (j' < length lam)%nat → before i' j' i j →
     a' - b' - Z.of_nat i' + Z.of_nat j' < len (_h_basis self)) →
  _construct_jacobi_trudi lam mu self
  = (Raise (IndexError_basis (_degree self)
              (a - b - Z.of_nat i + Z.of_nat j)), self)
  ∧ (¬ Uninitialized self →
     evaluate_partition lam (Some mu) self
     = (Raise (IndexError_basis (_degree self)
                 (a - b - Z.of_nat i + Z.of_nat j)), self)).
Proof.
  intros Ha Hb Hj Hbig Hearlier.
  pose proof (lookup_lt_Some _ _ _ Ha) as Hi.
  pose proof (entry_past_degree self lam _ i j a b Ha Hb Hbig) as Hentry.
  pose proof (padded_length lam mu) as Hpad.
  assert (_construct_jacobi_trudi lam mu self
          = (Raise (IndexError_basis (_degree self)
                      (a - b - Z.of_nat i + Z.of_nat j)), self)) as Hrun.
  { pose proof (construct_spec self lam mu) as Hspec.
    pose proof (construct_first_raise self lam mu) as Hfirst.
    destruct (_construct_jacobi_trudi lam mu self) as [[M|e] self'].
    - destruct Hspec as (_ & _ & Hfill).
      destruct (Hfill i j Hi Hj) as (v & Hv & _). congruence.
    - destruct Hspec as (-> & _).
      destruct Hfirst as (i0 & j0 & Hi0 & Hj0 & Hraise & Hok).
      destruct (decide (before i0 j0 i j)) as [Hbefore|Hnot].
      + apply entry_raise in Hraise as (a' & b' & Ha' & Hb' & Hbig' & _);
          [|unfold len in *; lia..].
        rewrite Nat2Z.id in Ha', Hb'.
        specialize (Hearlier i0 j0 a' b' Ha' Hb' Hj0 Hbefore). lia.
      + destruct (decide (before i j i0 j0)) as [Hafter|Hnot'].
        * destruct (Hok i j Hi Hj Hafter) as (v & Hv). congruence.
        * assert (i0 = i ∧ j0 = j) as [-> ->]
            by (unfold before in *; lia).
          congruence. }
  split; [done|]. intros Hne.
  rewrite evaluate_partition_run. cbn [mu_argument].
  rewrite bool_decide_eq_false_2, Hrun; [done|].
  unfold Uninitialized in Hne. unfold len.
  destruct (_h_basis self); [done|]. cbn. lia.
Qed.

End ErrorReport.

(** ** The sample of primes *)
Section SamplePrimesProofs.

Lemma for_else_spec ds chk :
  for_else ds chk = true ↔ ∀ d, d ∈ ds → chk `mod` d ≠ 0.
Proof.
  induction ds as [|d ds IH]; cbn.
  - split; [|done]. by intros _ d ?%elem_of_nil.
  - case_bool_decide as Hd.
    + split; [done|]. intros Hall. destruct (Hall d); [by left|done].
    + rewrite IH. split.
      * intros Hall d' [->|Hd']%elem_of_cons; auto.
      * intros Hall d' Hd'. apply Hall. by right.
Qed.

(** Trial division up to the integer square root decides primality; a
    bound between the square root and the number itself does as well. *)
Lemma trial_division chk r :
  2 ≤ chk → Z.sqrt chk ≤ r < chk →
  for_else (range 2 (r + 1)) chk = true ↔ prime chk.
Proof.
  intros Hchk Hr. rewrite for_else_spec. split.
  - intros Hnone. destruct (prime_dec chk) as [|Hnot]; [done|exfalso].
    destruct (not_prime_divide chk ltac:(lia) Hnot) as (d & Hd & q & Hq).
    pose proof (Z.sqrt_spec chk ltac:(lia)) as Hsqrt. cbv zeta in Hsqrt.
    assert (2 ≤ q) as Hq2 by nia.
    destruct (decide (d ≤ r)) as [Hle|Hgt].
    + apply (Hnone d); [apply elem_of_range; lia|].
      apply Z.mod_divide; [lia|]. by exists q.
    + assert (q ≤ Z.sqrt chk) as Hqs by nia.
      apply (Hnone q); [apply elem_of_range; lia|].
      apply Z.mod_divide; [lia|]. exists d. lia.
  - intros Hprime d Hd%elem_of_range Hmod.
    apply Z.mod_divide in Hmod; [|lia].
    destruct Hprime as [_ Hrel]. destruct (Hrel d ltac:(lia)) as [_ _ Hgcd].
    specialize (Hgcd d (Z.divide_refl d) Hmod).
    apply Z.divide_1_r in Hgcd. lia.
Qed.

Lemma primes_below_succ c :
  2 ≤ c →
  primes_below (c + 1)
  = primes_below c ++ (if decide (prime c) then [c] else []).
Proof.
  intros Hc. unfold primes_below, range.
  replace (c + 1 - 2) with (Z.of_nat (S (Z.to_nat (c - 2)))) by lia.
  rewrite seqZ_S, filter_app. rewrite Z2Nat.id by lia.
  replace (2 + (c - 2)) with c by lia.
  done.
Qed.

Lemma primes_below_2 : primes_below 2 = [].
Proof. done. Qed.

Lemma elem_of_primes_below c p : p ∈ primes_below c ↔ prime p ∧ p < c.
Proof.
  unfold primes_below. rewrite list_elem_of_filter, elem_of_range.
  split; [intros [Hp ?]; split; [done|lia]|].
  intros [Hp ?]. split; [done|]. destruct Hp as [Hp _]. lia.
Qed.

Lemma primes_below_length_succ c :
  2 ≤ c → len (primes_below c) ≤ len (primes_below (c + 1))
          ≤ len (primes_below c) + 1.
Proof.
  intros Hc. rewrite primes_below_succ by done. unfold len.
  rewrite length_app. destruct (decide (prime c)); cbn; lia.
Qed.

(** The loop between two candidates, with a square root that is right up
    to [B]. *)
Section Loop.
Variables (int_sqrt : Z → Z) (B n : Z).
Hypothesis int_sqrt_ok : ∀ c, 2 ≤ c ≤ B → Z.sqrt c ≤ int_sqrt c < c.

(** Invariant of the [while] loop: when the candidate is [c], the list
    holds the primes below [c]. *)
Lemma loop_step c fuel :
  2 ≤ c ≤ B → len (primes_below c) < n →
  sample_loop int_sqrt (S fuel) n (primes_below c) c
  = sample_loop int_sqrt fuel n (primes_below (c + 1)) (c + 1).
Proof.
  intros Hc Hfew. cbn [sample_loop].
  rewrite bool_decide_eq_true_2 by done. cbv zeta.
  rewrite primes_below_succ by lia.
  pose proof (trial_division c (int_sqrt c) ltac:(lia) (int_sqrt_ok c Hc))
    as Htrial.
  destruct (for_else _ c); destruct (decide (prime c)) as [Hp|Hp].
  - done.
  - destruct Hp. by apply Htrial.
  - by apply Htrial in Hp.
  - by rewrite app_nil_r.
Qed.

Lemma loop_run (k : nat) c fuel :
  2 ≤ c → c + Z.of_nat k ≤ B + 1 →
  (∀ c', c ≤ c' < c + Z.of_nat k → len (primes_below c') < n) →
  sample_loop int_sqrt (k + fuel) n (primes_below c) c
  = sample_loop int_sqrt fuel n (primes_below (c + Z.of_nat k))
      (c + Z.of_nat k).
Proof.
  revert c. induction k as [|k IH]; intros c Hc HB Hfew.
  - by rewrite Z.add_0_r.
  - cbn [Nat.add]. rewrite loop_step by (try apply Hfew; lia).
    rewrite IH by (try (intros; apply Hfew); lia).
    by replace (c + 1 + Z.of_nat k) with (c + Z.of_nat (S k)) by lia.
Qed.

(** The first candidate at which the list is long enough. *)
Lemma first_reach :
  n ≤ len (primes_below (B + 1)) →
  ∃ c, 2 ≤ c ≤ Z.max 2 (B + 1)
       ∧ n ≤ len (primes_below c)
       ∧ ∀ c', 2 ≤ c' < c → len (primes_below c') < n.
Proof.
  intros Henough.
  assert (∀ k : nat,
    (∃ c, 2 ≤ c ≤ 2 + Z.of_nat k ∧ n ≤ len (primes_below c)
          ∧ ∀ c', 2 ≤ c' < c → len (primes_below c') < n)
    ∨ (∀ c', 2 ≤ c' ≤ 2 + Z.of_nat k → len (primes_below c') < n))
    as Hsearch.
  { induction k as [|k [Hfound|Hnone]].
    - destruct (decide (n ≤ len (primes_below 2))) as [Hle|Hgt].
      + left. exists 2. split; [lia|]. split; [done|]. intros; lia.
      + right. intros c' Hc'. replace c' with 2 by lia. lia.
    - left. destruct Hfound as (c & Hc & Hrest). exists c.
      split; [lia|done].
    - destruct (decide (n ≤ len (primes_below (2 + Z.of_nat (S k)))))
        as [Hle|Hgt].
      + left. exists (2 + Z.of_nat (S k)). split; [lia|]. split; [done|].
        intros c' Hc'. apply Hnone. lia.
      + right. intros c' Hc'.
        destruct (decide (c' = 2 + Z.of_nat (S k))) as [->|Hne]; [lia|].
        apply Hnone. lia. }
  destruct (Hsearch (Z.to_nat (B - 1))) as [(c & Hc & Hrest)|Hnone].
  - exists c. split; [lia|done].
  - destruct (decide (1 ≤ B)) as [HB|HB].
    + specialize (Hnone (B + 1)). lia.
    + assert (primes_below (B + 1) = []) as Hempty.
      { unfold primes_below, range. by rewrite seqZ_nil by lia. }
      rewrite Hempty in Henough. specialize (Hnone 2).
      unfold len in *. cbn in *. lia.
Qed.

(** With [n] primes to be had up to [B], the loop returns the primes
    below some candidate, [n] of them (none when [n] is negative). *)
Lemma sample_loop_returns :
  n ≤ len (primes_below (B + 1)) →
  ∃ fuel c, 2 ≤ c ≤ Z.max 2 (B + 1)
    ∧ sample_loop int_sqrt fuel n [] 2 = Some (primes_below c)
    ∧ len (primes_below c) = Z.max n 0.
Proof.
  intros Henough.
  destruct (first_reach Henough) as (c & Hc & Hlong & Hshort).
  exists (Z.to_nat (c - 2) + 1)%nat, c. split; [done|]. split.
  - destruct (decide (c = 2)) as [->|Hne].
    + change (Z.to_nat (2 - 2) + 1)%nat with 1%nat. cbn [sample_loop].
      rewrite primes_below_2 in *. by rewrite bool_decide_eq_false_2 by lia.
    + rewrite <- primes_below_2.
      rewrite loop_run; rewrite ?Z2Nat.id by lia;
        [|lia|lia|intros c' Hc'; apply Hshort; lia].
      replace (2 + (c - 2)) with c by lia.
      cbn [sample_loop]. by rewrite bool_decide_eq_false_2 by lia.
  - destruct (decide (c = 2)) as [->|Hne].
    + rewrite primes_below_2 in *. unfold len in *. cbn in *. lia.
    + pose proof (Hshort (c - 1) ltac:(lia)) as Hprev.
      pose proof (primes_below_length_succ (c - 1) ltac:(lia)) as Hstep.
      replace (c - 1 + 1) with c in Hstep by lia.
      pose proof (len_nonneg (primes_below (c - 1))). lia.
Qed.

End Loop.

(** There are primes past every bound, so every sample size can be met. *)
Lemma prime_divisor n : 2 ≤ n → ∃ p, prime p ∧ (p | n).
Proof.
  remember (Z.to_nat n) as m eqn:Hm. revert n Hm.
  induction m as [m IH] using lt_wf_ind. intros n -> Hn.
  destruct (prime_dec n) as [Hp|Hnp].
  - exists n. split; [done|apply Z.divide_refl].
  - destruct (not_prime_divide n ltac:(lia) Hnp) as (d & Hd & Hdiv).
    destruct (IH (Z.to_nat d) ltac:(lia) d eq_refl ltac:(lia))
      as (p & Hp & Hpd).
    exists p. split; [done|]. by apply (Z.divide_trans _ d).
Qed.

Lemma divide_fact (m : nat) k :
  1 ≤ k ≤ Z.of_nat m → (k | Z.of_nat (fact m)).
Proof.
  induction m as [|m IH]; intros Hk; [lia|].
  change (fact (S m)) with (S m * fact m)%nat. rewrite Nat2Z.inj_mul.
  destruct (decide (k = Z.of_nat (S m))) as [->|Hne].
  - apply Z.divide_factor_l.
  - apply Z.divide_mul_r, IH. lia.
Qed.

Lemma primes_unbounded m : ∃ p, prime p ∧ m < p.
Proof.
  pose proof (fact_neq_0 (Z.to_nat m)) as Hpos.
  destruct (prime_divisor (Z.of_nat (fact (Z.to_nat m)) + 1) ltac:(lia))
    as (p & Hp & Hdiv).
  exists p. split; [done|].
  destruct (decide (m < p)) as [|Hle]; [done|exfalso].
  pose proof Hp as [Hp1 _].
  assert (p | Z.of_nat (fact (Z.to_nat m))) as Hfact
    by (apply divide_fact; lia).
  pose proof (Z.divide_add_cancel_r _ _ _ Hfact Hdiv) as Hone.
  apply Z.divide_1_r in Hone. lia.
Qed.

Lemma enough_primes (n : nat) :
  ∃ B, 1 ≤ B ∧ Z.of_nat n ≤ len (primes_below (B + 1)).
Proof.
  induction n as [|n (B & HB & IH)].
  - exists 1. split; [done|]. apply len_nonneg.
  - destruct (primes_unbounded B) as (p & Hp & Hlt).
    exists p. split; [lia|].
    assert (primes_below (p + 1)
            = primes_below (B + 1)
              ++ filter prime (seqZ (B + 1) (p - B))) as ->.
    { unfold primes_below, range. rewrite <- filter_app.
      replace (p + 1 - 2) with ((B + 1 - 2) + (p - B)) by lia.
      rewrite seqZ_app by lia. do 3 f_equal. lia. }
    assert (p ∈ filter prime (seqZ (B + 1) (p - B))) as Hin.
    { apply list_elem_of_filter. split; [done|]. apply elem_of_seqZ. lia. }
    unfold len in *. rewrite length_app.
    destruct (filter prime (seqZ (B + 1) (p - B))) as [|q l];
      [by apply elem_of_nil in Hin|]. cbn. lia.
Qed.

(** The primes below a candidate are the first of the primes below any
    later one. *)
Lemma primes_below_le c c' :
  2 ≤ c ≤ c' →
  primes_below c' = primes_below c ++ filter prime (range c c').
Proof.
  intros Hc. unfold primes_below, range. rewrite <- filter_app. f_equal.
  replace (c' - 2) with ((c - 2) + (c' - c)) by lia.
  rewrite seqZ_app by lia. do 2 f_equal. lia.
Qed.

Lemma primes_below_same_length c c' :
  2 ≤ c ≤ c' → len (primes_below c) = len (primes_below c') →
  primes_below c = primes_below c'.
Proof.
  intros Hc Hlen. rewrite (primes_below_le c c' Hc) in Hlen |- *.
  unfold len in Hlen. rewrite length_app in Hlen.
  destruct (filter prime (range c c')) as [|p rest]; [by rewrite app_nil_r|].
  cbn in Hlen. lia.
Qed.

(** Every sample size is met at some candidate. *)
Lemma first_primes_exist n :
  ∃ c, 2 ≤ c ∧ len (primes_below c) = Z.max n 0.
Proof.
  destruct (enough_primes (Z.to_nat n)) as (B & HB & Hlen).
  destruct (sample_loop_returns Z.sqrt B n) as (fuel & c & Hc & _ & Hcount).
  - intros chk Hchk. split; [done|]. apply Z.sqrt_lt_lin. lia.
  - pose proof (len_nonneg (primes_below (B + 1))). lia.
  - exists c. split; [lia|done].
Qed.

(** The primes below a candidate, by trial division: a form that
    computes. *)
Lemma primes_below_compute c :
  primes_below c
  = List.filter (λ chk, for_else (range 2 (Z.sqrt chk + 1)) chk) (range 2 c).
Proof.
  unfold primes_below.
  assert (∀ chk, chk ∈ range 2 c → 2 ≤ chk) as Hge
    by (intros chk Hchk%elem_of_range; lia).
  induction (range 2 c) as [|chk l IH]; [done|].
  assert (2 ≤ chk) as Hchk by (apply Hge; left).
  pose proof (trial_division chk (Z.sqrt chk) Hchk) as Htrial.
  lapply Htrial; [clear Htrial; intros Htrial
                 |split; [done|apply Z.sqrt_lt_lin; lia]].
  rewrite filter_cons. cbn [List.filter].
  rewrite IH by (intros x Hx; apply Hge; by right).
  destruct (for_else _ chk); destruct (decide (prime chk)) as [Hp|Hp].
  - done.
  - destruct Hp. by apply Htrial.
  - by apply Htrial in Hp.
  - done.
Qed.

(** A square root checked candidate by candidate is right on the range
    checked. *)
Lemma int_sqrt_checked (int_sqrt : Z → Z) c :
  forallb (λ chk, bool_decide (Z.sqrt chk ≤ int_sqrt chk < chk)) (range 2 c)
  = true →
  ∀ chk, 2 ≤ chk < c → Z.sqrt chk ≤ int_sqrt chk < chk.
Proof.
  intros Hall chk Hchk. rewrite List.forallb_forall in Hall.
  assert (In chk (range 2 c)) as Hin
    by (apply list_elem_of_In, elem_of_range; lia).
  apply Hall in Hin. cbv beta in Hin. by apply bool_decide_eq_true_1 in Hin.
Qed.

(** What [generate_sample_primes(n)] returns and writes ([n] is 1000 when
    omitted).  Every sample size is met: there is a candidate with exactly
    [n] primes below it (none when [n] is negative), the least being the
    [n]-th prime plus one.  For any such candidate [c], whenever
    [int(chk ** 0.5)] lies between the integer square root of [chk] and
    [chk] itself for the candidates [chk] below [c], the call returns
    after finitely many iterations: it returns the file name, and the file
    holds one line per prime for the primes below [c], in increasing
    order, which are the first [n] primes. *)
Theorem generate_sample_primes_first_n :
  (∀ n : Z, ∃ c, 2 ≤ c ∧ len (primes_below c) = Z.max n 0)
  ∧ ∀ (int_sqrt : Z → Z) (n : option Z) (files : gmap string string) c,
      2 ≤ c →
      len (primes_below c) = Z.max (default 1000 n) 0 →
      (∀ chk, 2 ≤ chk < c → Z.sqrt chk ≤ int_sqrt chk < chk) →
      ∃ fuel,
        generate_sample_primes int_sqrt fuel n files
        = Some ("primes_sample.txt",
                <["primes_sample.txt" := written (primes_below c)]> files).
Proof.
  split; [exact first_primes_exist|].
  intros int_sqrt n files c Hc Hlen Hsqrt.
  destruct (sample_loop_returns int_sqrt (c - 1) (default 1000 n))
    as (fuel & c' & Hc' & Hrun & Hcount).
  - intros chk Hchk. apply Hsqrt. lia.
  - replace (c - 1 + 1) with c by lia. lia.
  - exists fuel. unfold generate_sample_primes. cbv zeta. rewrite Hrun.
    cbn. by rewrite (primes_below_same_length c' c) by lia.
Qed.

End SamplePrimesProofs.

(** ** The comparison made by the validation script *)
Section TestRun.
Context {F : Type} `{Numpy F}.

(** Whatever primes were loaded, once [compute_basis] has run with a
    degree of at least 10 (the script asks for 20) the twin and the sexy
    configuration of [run_test] both evaluate, so that
    [compare_topologies(twin_cfg, sexy_cfg)] can fail in one way only: the
    ValueError of a reference capacity close to zero.  Otherwise it
    returns the three capacities of the two evaluations. *)
Theorem test_configurations_evaluate (data : list F) (max_degree : Z) :
  10 ≤ max_degree →
  let sieve := (compute_basis max_degree (__init__ data)).2 in
  ∃ s_a s_b,
    evaluate_partition twin_cfg.1 (Some twin_cfg.2) sieve = (Ok s_a, sieve)
    ∧ evaluate_partition sexy_cfg.1 (Some sexy_cfg.2) sieve = (Ok s_b, sieve)
    ∧ compare_topologies twin_cfg sexy_cfg sieve
      = (if np_isclose s_a lit_0_0 then Raise ValueError_singular
         else Ok (<["capacity_denominator" := s_a]>
                  (<["capacity_numerator" := s_b]>
                   (<["chi_ratio" := fdiv s_b s_a]> ∅))),
         sieve).
Proof.
  intros HD sieve.
  assert (BasisReady sieve) as Hready by (apply basis_ready_compute; lia).
  assert (_degree sieve = max_degree) as Hdeg.
  { unfold sieve.
    destruct (compute_basis_spec (__init__ data) max_degree)
      as (h & -> & _); [lia|done]. }
  destruct (evaluate_within_degree sieve twin_cfg.1 (Some twin_cfg.2) 4)
    as (Ma & _ & Ha); [done| | |rewrite Hdeg; unfold len; cbn; lia|].
  { repeat constructor; lia. }
  { repeat constructor; lia. }
  destruct (evaluate_within_degree sieve sexy_cfg.1 (Some sexy_cfg.2) 8)
    as (Mb & _ & Hb); [done| | |rewrite Hdeg; unfold len; cbn; lia|].
  { repeat constructor; lia. }
  { repeat constructor; lia. }
  exists (np_linalg_det Ma), (np_linalg_det Mb).
  split; [done|]. split; [done|].
  rewrite compare_topologies_run, Ha, Hb. cbn.
  by destruct (np_isclose (np_linalg_det Ma) lit_0_0).
Qed.

End TestRun.

(** ** The claims at concrete inputs: binary64 *)
Section OnBinary64.
Import Binary64.

Lemma ready_basis_ready : BasisReady (ready (F := float)).
Proof. exists fresh, 2. vm_compute. reflexivity. Qed.

Lemma compute_basis_invalid_degree_witness :
  compute_basis (-3) (ready (F := float)) = (Raise ValueError_degree, ready).
Proof. apply (compute_basis_invalid_degree ready (-3)). lia. Defined.

Lemma uninitialized_refuses_witness :
  (∀ lam mu, evaluate_partition lam mu (fresh (F := float))
             = (Raise RuntimeError_uninitialized, fresh))
  ∧ (∀ config_a config_b,
       compare_topologies config_a config_b (fresh (F := float))
       = (Raise RuntimeError_uninitialized, fresh)).
Proof. apply (uninitialized_refuses fresh). reflexivity. Defined.

Lemma empty_shape_witness :
  _construct_jacobi_trudi [] [] (ready (F := float)) = (Ok [], ready)
  ∧ evaluate_partition [] (Some []) (ready (F := float))
    = (Ok lit_1_0, ready).
Proof.
  apply (empty_shape ready); [exact ready_basis_ready | reflexivity].
Defined.

Lemma degree_guard_witness :
  ∃ idx, idx > 2
    ∧ _construct_jacobi_trudi [2; 1] [0; 0] (ready (F := float))
      = (Raise (IndexError_basis 2 idx), ready)
    ∧ evaluate_partition [2; 1] None (ready (F := float))
      = (Raise (IndexError_basis 2 idx), ready).
Proof.
  apply (degree_guard ready [2; 1] None 0 1 2 0);
    [exact ready_basis_ready | reflexivity | reflexivity | simpl; lia
    | vm_compute; reflexivity].
Defined.

(** The matrix built for [lam = [1, 0]], [mu = [0]] in the scenario:
    indices 1, 2 in the first row and -1, 0 in the second. *)
Lemma zero_index_convention_witness :
  ∃ M, (_construct_jacobi_trudi [1; 0] [0] (ready (F := float))).1 = Ok M
       ∧ cell_at M 1 0 = Some lit_0_0
       ∧ ∃ v, _h_basis (ready (F := float)) !! 2%nat = Some v
              ∧ cell_at M 0 1 = Some v.
Proof.
  eexists. split; [vm_compute; reflexivity|]. split.
  - apply (zero_index_convention ready [1; 0] [0] _ 1 0 0 0);
      [vm_compute; reflexivity | reflexivity | reflexivity
      | simpl; lia | simpl; lia].
  - apply (zero_index_convention ready [1; 0] [0] _ 0 1 1 0);
      [vm_compute; reflexivity | reflexivity | reflexivity | simpl; lia
      | exact ready_basis_ready | vm_compute; split; discriminate].
Defined.

Lemma longer_mu_is_truncated_witness :
  padded [2] [1; 7; 9] = [1; 7; 9]
  ∧ (evaluate_partition [2] (Some [1; 7; 9]) (ready (F := float))).1
    ≠ Raise IndexError_out_of_range
  ∧ evaluate_partition [2] (Some [1; 7; 9]) (ready (F := float))
    = evaluate_partition [2] (Some (take (length [2]) [1; 7; 9])) ready.
Proof.
  apply (longer_mu_is_truncated ready [2] [1; 7; 9]);
    [exact ready_basis_ready | unfold len; simpl; lia].
Defined.

Lemma compare_topologies_guard_witness :
  compare_topologies ([1], [0]) ([2], [0]) (ready (F := float))
  = (if np_isclose 0x1.0888888888888p+0%float lit_0_0
     then Raise ValueError_singular
     else Ok (<["capacity_denominator" := 0x1.0888888888888p+0%float]>
              (<["capacity_numerator" := 0x1.78091a2b3c4d4p-1%float]>
               (<["chi_ratio" := fdiv 0x1.78091a2b3c4d4p-1%float
                                      0x1.0888888888888p+0%float]> ∅))),
     ready).
Proof.
  apply (compare_topologies_guard ready ([1], [0]) ([2], [0]));
    [exact ready_basis_ready | vm_compute; reflexivity
    | vm_compute; reflexivity].
Defined.

Lemma evaluator_states_witness :
  _primes (ready (F := float)) = of_int <$> [2; 3; 5]
  ∧ ((Uninitialized (ready (F := float)) ∧ ¬ BasisReady (ready (F := float))
      ∧ _degree (ready (F := float)) = 0)
     ∨ (BasisReady (ready (F := float))
        ∧ ¬ Uninitialized (ready (F := float))))
  ∧ ∀ c, (BasisReady (ready (F := float)) → BasisReady (after c ready))
         ∧ (Uninitialized (ready (F := float)) → BasisReady (after c ready) →
            ∃ max_degree, c = call_compute_basis max_degree
                          ∧ 1 ≤ max_degree).
Proof.
  apply (evaluator_states (of_int <$> [2; 3; 5]) ready).
  exact (reachable_call _ (call_compute_basis 2) fresh (reachable_init _)).
Defined.

Lemma compute_basis_replaces_witness :
  compute_basis 1 (ready (F := float))
  = (Ok tt, (compute_basis 1 (__init__ (_primes ready))).2)
  ∧ _primes (compute_basis 1 (ready (F := float))).2 = _primes ready
  ∧ _degree (compute_basis 1 (ready (F := float))).2 = 1
  ∧ BasisReady (compute_basis 1 (ready (F := float))).2.
Proof. apply (compute_basis_replaces ready 1). lia. Defined.

Lemma evaluate_partition_returns_det_witness :
  ∃ M, _construct_jacobi_trudi [1; 1] (mu_argument [1; 1] None)
         (ready (F := float)) = (Ok M, ready)
       ∧ square (length [1; 1]) M
       ∧ evaluate_partition [1; 1] None (ready (F := float))
         = (Ok (np_linalg_det M), ready).
Proof.
  apply (evaluate_partition_returns_det ready [1; 1] None);
    [exact ready_basis_ready|].
  intros i j a b Ha Hb Hj.
  destruct i as [|[|i]]; cbn in Ha; [| |discriminate];
    destruct j as [|[|j]]; cbn in Hb, Hj; try lia;
    injection Ha as <-; injection Hb as <-; vm_compute; discriminate.
Defined.

(** In the scenario, in binary64, [n * h_n] passes [np.isclose] against
    the recomputed right-hand side of the identity, for [n] = 1 and 2. *)
Example newton_binary64 :
  let h := _h_basis (ready (F := float)) in
  np_isclose (fmul (of_int 1) (h_ h 1)) (newton_rhs (_primes ready) h 1) = true
  ∧ np_isclose (fmul (of_int 2) (h_ h 2)) (newton_rhs (_primes ready) h 2)
    = true.
Proof. split; vm_compute; reflexivity. Qed.

(** A reference whose matrix is singular: [lam = [0, 0]], [mu = [1, 1]]
    gives the matrix [[0, 1], [0, 0]], capacity 0.0, and the comparison
    raises instead of dividing. *)
Example singular_reference_binary64 :
  (evaluate_partition [0; 0] (Some [1; 1]) (ready (F := float))).1
  = Ok 0%float
  ∧ compare_topologies ([0; 0], [1; 1]) ([1], [0]) (ready (F := float))
    = (Raise ValueError_singular, ready).
Proof. split; vm_compute; reflexivity. Qed.

(** [np.isclose(x, 0.0)] in binary64 at a few values: 1e-09 is close to
    zero, 1e-07 is not, and neither an infinity nor a NaN is. *)
Example isclose_zero_binary64 :
  np_isclose (decimal 1 9) (lit_0_0 (F := float)) = true
  ∧ np_isclose (decimal 1 7) (lit_0_0 (F := float)) = false
  ∧ np_isclose infinity (lit_0_0 (F := float)) = false
  ∧ np_isclose nan (lit_0_0 (F := float)) = false.
Proof. repeat split; vm_compute; reflexivity. Qed.

End OnBinary64.

(** ** The claims at concrete inputs: exact arithmetic *)
Section OnExact.
Import Exact.

(** In exact arithmetic multiplying a quotient back is the identity. *)
Lemma exact_mul_div_back (x : Q) (n : Z) :
  1 ≤ n → Qeq (fmul (of_int n) (fdiv x (of_int n))) x.
Proof.
  intros Hn. cbn. apply Qmult_div_r.
  unfold Qeq. cbn. lia.
Qed.

(** In exact arithmetic, where nothing rounds, the stored basis satisfies
    the identity itself: [n * h_n] is the sum. *)
Lemma newton_identity_exact (self : SchurSieve Q) max_degree n :
  1 ≤ n ≤ max_degree →
  let after := (compute_basis max_degree self).2 in
  Qeq (fmul (of_int n) (h_ (_h_basis after) n))
      (newton_sum (_primes self) (_h_basis after) n).
Proof.
  intros Hn.
  destruct (compute_basis_spec self max_degree ltac:(lia))
    as (h & -> & _ & _ & Hrec).
  cbn [snd _h_basis]. specialize (Hrec n Hn).
  rewrite (h_lookup h n _ ltac:(lia) Hrec), newton_rhs_sum by lia.
  apply exact_mul_div_back. lia.
Qed.

(** In exact arithmetic [np.isclose(x, 0.0)] says [|x| <= 1e-08]. *)
Lemma isclose_zero_exact (x : Q) :
  np_isclose x lit_0_0 = true ↔ (Qabs x <= 1 # 100000000)%Q.
Proof.
  unfold np_isclose, numpy, model_isclose, isfinite, float64, fleb, fabs,
    fsub, fadd, fmul, lit_0_0, of_int.
  cbv beta iota. simpl andb. cbv iota. rewrite Qle_bool_iff.
  assert (x - inject_Z 0 == x)%Q as Hx by ring.
  assert (atol + rtol * Qabs (inject_Z 0) == 1 # 100000000)%Q as Htol
    by (vm_compute; reflexivity).
  by rewrite Hx, Htol.
Qed.

End OnExact.

(** ** The concrete scenario *)
Section ConcreteScenario.
Import Binary64 Exact.

(** C5, as stated, fails.  With primes 2, 3, 5 and [compute_basis(2)],
    [evaluate_partition([2], [0])] does not return a value within
    tolerance of 0.734479: what it returns is more than 3e-05 away, and
    [np.isclose] rejects it.  This is so in binary64 and in exact
    arithmetic alike. *)
Lemma scenario_not_0_734479 :
  (¬ ∃ r2 : float,
       (evaluate_partition [2] (Some [0]) ready).1 = Ok r2
       ∧ (within (decimal 3 5) r2 (decimal 734479 6) = true
          ∨ np_isclose r2 (decimal 734479 6) = true))
  ∧ (¬ ∃ q2 : Q,
         (evaluate_partition [2] (Some [0]) ready).1 = Ok q2
         ∧ (within (decimal 3 5) q2 (decimal 734479 6) = true
            ∨ np_isclose q2 (decimal 734479 6) = true)).
Proof.
  split.
  - intros (r2 & Hr2 & Hclose). vm_compute in Hr2. injection Hr2 as <-.
    vm_compute in Hclose. by destruct Hclose.
  - intros (q2 & Hq2 & Hclose). vm_compute in Hq2. injection Hq2 as <-.
    vm_compute in Hclose. by destruct Hclose.
Qed.

(** C5, amended.  With primes 2, 3, 5 and [compute_basis(2)],
    [evaluate_partition([1], [0])] returns a value within 1e-06 of
    1.033333 and [evaluate_partition([2], [0])] a value within 1e-06 of
    0.734444; [np.isclose] accepts both.  In exact arithmetic the two
    values are 31/30 and 661/900. *)
Theorem scenario_capacities :
  (∃ r1 r2 : float,
     evaluate_partition [1] (Some [0]) ready = (Ok r1, ready)
     ∧ evaluate_partition [2] (Some [0]) ready = (Ok r2, ready)
     ∧ within (decimal 1 6) r1 (decimal 1033333 6) = true
     ∧ within (decimal 1 6) r2 (decimal 734444 6) = true
     ∧ np_isclose r1 (decimal 1033333 6) = true
     ∧ np_isclose r2 (decimal 734444 6) = true)
  ∧ (∃ q1 q2 : Q,
       evaluate_partition [1] (Some [0]) ready = (Ok q1, ready)
       ∧ evaluate_partition [2] (Some [0]) ready = (Ok q2, ready)
       ∧ Qeq q1 (31 # 30) ∧ Qeq q2 (661 # 900)).
Proof.
  split.
  - eexists _, _. split; [vm_compute; reflexivity|].
    split; [vm_compute; reflexivity|].
    repeat split; vm_compute; reflexivity.
  - eexists _, _. split; [vm_compute; reflexivity|].
    split; [vm_compute; reflexivity|].
    split; vm_compute; reflexivity.
Qed.

End ConcreteScenario.

(** ** Further properties at concrete inputs *)
Section FurtherOnBinary64.
Import Binary64.

Lemma shift_invariance_witness :
  evaluate_partition ((λ a, a + 3) <$> [2; 1]) (Some ((λ b, b + 3) <$> [1; 0]))
    (ready (F := float))
  = evaluate_partition [2; 1] (Some [1; 0]) ready.
Proof. apply (shift_invariance ready [2; 1] [1; 0] 3). reflexivity. Defined.

Lemma basis_prefix_stable_witness :
  _h_basis (compute_basis 1 (fresh (F := float))).2
  = take (Z.to_nat (1 + 1)) (_h_basis (compute_basis 2 (fresh (F := float))).2).
Proof. apply (basis_prefix_stable fresh 1 2). lia. Defined.

Lemma evaluation_survives_recomputation_witness :
  evaluate_partition [1] None (compute_basis 2 (fresh (F := float))).2
  = (Ok 0x1.0888888888888p+0%float, (compute_basis 2 fresh).2).
Proof.
  apply (evaluation_survives_recomputation fresh 1 2 [1] None);
    [lia | vm_compute; reflexivity].
Defined.

Lemma sufficient_degree_witness :
  ∃ M, square (length [1; 1]) M
       ∧ evaluate_partition [1; 1] None (ready (F := float))
         = (Ok (np_linalg_det M), ready).
Proof.
  apply (sufficient_degree ready [1; 1] None 1);
    [exact ready_basis_ready | repeat constructor; lia
    | change (mu_argument [1; 1] None) with [0; 0]; repeat constructor; lia
    | vm_compute; discriminate].
Defined.

Lemma first_offending_cell_witness :
  _construct_jacobi_trudi [2; 1] [0; 0] (ready (F := float))
  = (Raise (IndexError_basis (_degree (ready (F := float)))
              (2 - 0 - Z.of_nat 0 + Z.of_nat 1)), ready)
  ∧ (¬ Uninitialized (ready (F := float)) →
     evaluate_partition [2; 1] (Some [0; 0]) (ready (F := float))
     = (Raise (IndexError_basis (_degree (ready (F := float)))
                 (2 - 0 - Z.of_nat 0 + Z.of_nat 1)), ready)).
Proof.
  apply (first_offending_cell ready [2; 1] [0; 0] 0 1 2 0);
    [reflexivity | reflexivity | simpl; lia | vm_compute; discriminate |].
  intros i' j' a' b' Ha Hb Hj [Hlt|[-> Hlt]]; [lia|].
  assert (j' = 0%nat) as -> by lia.
  vm_compute in Ha, Hb. injection Ha as <-. injection Hb as <-.
  vm_compute. reflexivity.
Defined.

Lemma test_configurations_evaluate_witness :
  let sieve :=
    (compute_basis test_degree (__init__ (of_int <$> [2; 3; 5]))).2 in
  ∃ s_a s_b : float,
    evaluate_partition twin_cfg.1 (Some twin_cfg.2) sieve = (Ok s_a, sieve)
    ∧ evaluate_partition sexy_cfg.1 (Some sexy_cfg.2) sieve = (Ok s_b, sieve)
    ∧ compare_topologies twin_cfg sexy_cfg sieve
      = (if np_isclose s_a lit_0_0 then Raise ValueError_singular
         else Ok (<["capacity_denominator" := s_a]>
                  (<["capacity_numerator" := s_b]>
                   (<["chi_ratio" := fdiv s_b s_a]> ∅))),
         sieve).
Proof.
  apply (test_configurations_evaluate (of_int <$> [2; 3; 5]) test_degree).
  unfold test_degree. lia.
Defined.

(** [generate_sample_primes(10)] with binary64 square roots, from an
    empty file system. *)
Example sample_of_ten :
  generate_sample_primes int_sqrt_binary64 30 (Some 10) ∅
  = Some ("primes_sample.txt",
          {["primes_sample.txt" :=
              written [2; 3; 5; 7; 11; 13; 17; 19; 23; 29]]}).
Proof. vm_compute. reflexivity. Qed.

(** [int(chk ** 0.5)] in binary64 is the integer square root for every
    candidate from 2 to 2000. *)
Example int_sqrt_binary64_exact :
  forallb (λ chk, bool_decide (int_sqrt_binary64 chk = Z.sqrt chk))
    (range 2 2001) = true.
Proof. vm_compute. reflexivity. Qed.

End FurtherOnBinary64.

(** ** Newton's identity and the sample of primes in binary64 *)
Section RoundingOnBinary64.
Import Binary64.




(** [generate_sample_primes(10)] with the square roots of binary64: there
    are ten primes below 30 and [int(chk ** 0.5)] is right for every
    candidate below 30. *)
Lemma generate_sample_primes_first_n_witness :
  ∃ fuel,
    generate_sample_primes int_sqrt_binary64 fuel (Some 10) ∅
    = Some ("primes_sample.txt",
            <["primes_sample.txt" := written (primes_below 30)]> ∅).
Proof.
  apply (proj2 generate_sample_primes_first_n int_sqrt_binary64 (Some 10) ∅ 30);
    [lia | rewrite primes_below_compute; vm_compute; reflexivity
    | apply int_sqrt_checked; vm_compute; reflexivity].
Defined.

End RoundingOnBinary64.
